(** * Tag maps of the [tag] package (tag/map.go)

    A shallow embedding of [Map], its four primitive edits, the four
    [Mutator] constructors, [NewMap] and the [String] method, over an
    explicit store of [Map] objects addressed by pointers.

    Naming: a Go method [f] with receiver type [T] is written [T_f];
    everything else keeps the name it has in the source. *)

From Stdlib Require Import String Ascii OrderedTypeEx.
From stdpp Require Import base gmap list strings sorting.

Local Open Scope string_scope.
Local Open Scope list_scope.

(** ** Go values used by the package *)

(** The only error value this file returns. *)
Variant error : Type := errInvalid.

(** A Go pointer [*Map]: [None] is [nil]. *)
Definition loc := positive.
Definition ptr := option loc.

(** ** A runnable instance of what the package takes from outside

    Used to evaluate the model on concrete inputs. *)

(** An implementation of the [sort.Slice] contract: insertion sort, the
    algorithm Go itself runs on short slices. *)
Fixpoint insert_sorted {A} (less : A → A → bool) (x : A) (l : list A) : list A :=
  match l with
  | [] => [x]
  | y :: l' => if less y x then y :: insert_sorted less x l' else x :: y :: l'
  end.

Definition insertion_sort {A} (l : list A) (less : A → A → bool) : list A :=
  foldr (insert_sorted less) [] l.

(** Modelled from the spec: [checkValue] is declared outside tag/map.go;
    this instance is the predicate of the spec's short-circuit example,
    under which the empty string is invalid. *)
Definition nonempty_value (v : string) : bool :=
  match v with
  | EmptyString => false
  | String _ _ => true
  end.

(** A second run time, which visits a map and sorts a slice the other way
    round. *)
Definition range_backwards `{Countable K} {V} (tbl : gmap K V) : list (K * V) :=
  reverse (map_to_list tbl).

Definition sort_backwards {A} (l : list A) (less : A → A → bool) : list A :=
  insertion_sort (reverse l) less.

(** Keys that are nothing but their display name. *)
Definition name_of (k : string) : string := k.

(** Modelled from the spec: the [Key] type is declared outside tag/map.go;
    the specification describes it as an opaque, comparable identifier
    that carries a display name. This instance pairs an identifier with
    the name, so two keys can share a name. *)
Definition id_key : Type := positive * string.
Definition id_key_name (k : id_key) : string := k.2.

(** A context that carries nothing but the tag map pointer. *)
Definition ptr_context : Type := ptr.
Definition ptr_FromContext (ctx : ptr_context) : ptr := ctx.

Section tag.

(** Declared outside tag/map.go: the [Key] type (comparable, usable as a
    map key), its display name ([k.name], returned by [k.Name()]), the
    value validity predicate and the context reader. *)
Context {Key : Type} `{Countable Key}.
Variable Name : Key → string.
Variable checkValue : string → bool.
Variable context : Type.
Variable FromContext : context → ptr.

(** [type Map struct { m map[Key]string }]. The table is held in the
    object itself: [newMap] is the only place that makes one, so no two
    [Map] objects share a table. *)
Record Map : Type := mkMap { m : gmap Key string }.

(** The store: the [Map] objects allocated so far. *)
Abbreviation heap := (gmap loc Map).

(** A Go computation: reads and writes the store; [None] is a run-time
    panic (a nil dereference). *)
Definition Go (A : Type) : Type := heap → option (A * heap).

Definition ret {A} (a : A) : Go A := λ h, Some (a, h).

Definition bind {A B} (c : Go A) (f : A → Go B) : Go B :=
  λ h, match c h with
       | Some (a, h') => f a h'
       | None => None
       end.

(** [*p] *)
Definition load (p : ptr) : Go Map :=
  λ h, match p with
       | Some l => match h !! l with
                   | Some t => Some (t, h)
                   | None => None
                   end
       | None => None
       end.

(** [p.m = tbl], which is what an assignment [p.m[k] = v] or a
    [delete(p.m, k)] amounts to. *)
Definition store (p : ptr) (t : Map) : Go unit :=
  λ h, match p with
       | Some l => match h !! l with
                   | Some _ => Some (tt, <[l := t]> h)
                   | None => None
                   end
       | None => None
       end.

(** [&Map{...}]: a new object at an address not in use. *)
Definition alloc (t : Map) : Go ptr :=
  λ h, let l := fresh (dom h) in Some (Some l, <[l := t]> h).

#[local] Instance Go_ret : MRet Go := @ret.
#[local] Instance Go_bind : MBind Go := λ A B f c, bind c f.

(** ** Methods of [Map] *)

(** [func (m *Map) Value(k Key) (string, bool)]: a missing key reads as
    the zero string and [false]. *)
Definition Map_Value (p : ptr) (k : Key) : Go (string * bool) :=
  t ← load p;
  match m t !! k with
  | Some v => mret (v, true)
  | None => mret ("", false)
  end.

(** [func (m *Map) insert(k Key, v string)] *)
Definition Map_insert (p : ptr) (k : Key) (v : string) : Go unit :=
  t ← load p;
  match m t !! k with
  | Some _ => mret tt
  | None => store p (mkMap (<[k := v]> (m t)))
  end.

(** [func (m *Map) update(k Key, v string)] *)
Definition Map_update (p : ptr) (k : Key) (v : string) : Go unit :=
  t ← load p;
  match m t !! k with
  | Some _ => store p (mkMap (<[k := v]> (m t)))
  | None => mret tt
  end.

(** [func (m *Map) upsert(k Key, v string)] *)
Definition Map_upsert (p : ptr) (k : Key) (v : string) : Go unit :=
  t ← load p;
  store p (mkMap (<[k := v]> (m t))).

(** [func (m *Map) delete(k Key)] *)
Definition Map_delete (p : ptr) (k : Key) : Go unit :=
  t ← load p;
  store p (mkMap (delete k (m t))).

(** [func newMap(sizeHint int) *Map]: the hint only sizes the table. *)
Definition newMap (sizeHint : Z) : Go ptr := alloc (mkMap ∅).

(** ** Mutators *)

(** [type Mutator interface], whose one method [Mutate] takes a [*Map]
    and returns a [*Map] and an [error]: an
    interface value is its method. *)
Record Mutator : Type := { Mutate : ptr → Go (ptr * option error) }.

(** [type mutator struct], whose one field [fn] is a function of the
    same type as [Mutate] *)
Record mutator : Type := { fn : ptr → Go (ptr * option error) }.

(** [func (m *mutator) Mutate(t *Map)] *)
Definition mutator_Mutate (mu : mutator) (t : ptr) : Go (ptr * option error) :=
  fn mu t.

(** A [*mutator] used where a [Mutator] is expected. *)
Definition as_Mutator (mu : mutator) : Mutator :=
  {| Mutate := mutator_Mutate mu |}.

(** [func Insert(k Key, v string) Mutator] *)
Definition Insert (k : Key) (v : string) : Mutator :=
  as_Mutator {| fn := λ p,
    if negb (checkValue v) then mret (None, Some errInvalid)
    else _ ← Map_insert p k v; mret (p, None) |}.

(** [func Update(k Key, v string) Mutator] *)
Definition Update (k : Key) (v : string) : Mutator :=
  as_Mutator {| fn := λ p,
    if negb (checkValue v) then mret (None, Some errInvalid)
    else _ ← Map_update p k v; mret (p, None) |}.

(** [func Upsert(k Key, v string) Mutator] *)
Definition Upsert (k : Key) (v : string) : Mutator :=
  as_Mutator {| fn := λ p,
    if negb (checkValue v) then mret (None, Some errInvalid)
    else _ ← Map_upsert p k v; mret (p, None) |}.

(** [func Delete(k Key) Mutator] *)
Definition Delete (k : Key) : Mutator :=
  as_Mutator {| fn := λ p, _ ← Map_delete p k; mret (p, None) |}.

(** ** The Go run time *)

(** Go leaves the order in which [range] visits a map unspecified; the
    order is a parameter of the model, known only to visit every entry
    exactly once. *)
Variable range : gmap Key string → list (Key * string).
Hypothesis range_perm : ∀ tbl, range tbl ≡ₚ map_to_list tbl.

(** [sort.Slice] is specified by its contract, not by an algorithm (it is
    not stable): for a [less] that is a strict weak ordering the result
    is a rearrangement of the slice in which no element is [less] than
    one before it. *)
Definition strict_weak_order (less : Key → Key → bool) : Prop :=
  (∀ a, less a a = false) ∧
  (∀ a b c, less a b = true → less b c = true → less a c = true) ∧
  (∀ a b c, less a b = false → less b c = false → less a c = false).

Variable sort_Slice : list Key → (Key → Key → bool) → list Key.
Hypothesis sort_Slice_perm : ∀ l less, sort_Slice l less ≡ₚ l.
Hypothesis sort_Slice_sorted : ∀ l less,
  strict_weak_order less →
  StronglySorted (λ a b, less b a = false) (sort_Slice l less).

(** ** [String] *)

(** [fmt.Sprintf("{%v %v}", k.name, m.m[k])] *)
Definition fmt_tag (tbl : gmap Key string) (k : Key) : string :=
  "{" +:+ Name k +:+ " " +:+ default "" (tbl !! k) +:+ "}".

(** [func (m *Map) String() string] *)
Definition Map_String (p : ptr) : Go string :=
  t ← load p;
  let keys := (range (m t)).*1 in
  let keys := sort_Slice keys (λ i j, String.ltb (Name i) (Name j)) in
  let buffer := "{ " in
  let buffer := foldl (λ buf k, buf +:+ fmt_tag (m t) k) buffer keys in
  let buffer := buffer +:+ " }" in
  mret buffer.

(** ** [NewMap] *)

(** [for k, v := range orig.m { m.insert(k, v) }] *)
Fixpoint copy_entries (p : ptr) (entries : list (Key * string)) : Go unit :=
  match entries with
  | [] => mret tt
  | (k, v) :: rest => _ ← Map_insert p k v; copy_entries p rest
  end.

(** [for _, mod := range mutator { m, err = mod.Mutate(m); ... }] followed
    by [return m, nil]. *)
Fixpoint apply_mutators (p : ptr) (mods : list Mutator) : Go (ptr * option error) :=
  match mods with
  | [] => mret (p, None)
  | mu :: rest =>
      '(p', err) ← Mutate mu p;
      match err with
      | Some e => mret (None, Some e)
      | None => apply_mutators p' rest
      end
  end.

(** [func NewMap(ctx context.Context, mutator ...Mutator)] *)
Definition NewMap (ctx : context) (mods : list Mutator) : Go (ptr * option error) :=
  p ← newMap 0;
  let orig := FromContext ctx in
  _ ← match orig with
      | Some _ => o ← load orig; copy_entries p (range (m o))
      | None => mret tt
      end;
  apply_mutators p mods.

(** ** The mutators the package constructs *)

(** The values [Insert], [Update], [Upsert] and [Delete] can return,
    named by constructor and arguments. *)
Inductive edit : Type :=
| EInsert (k : Key) (v : string)
| EUpdate (k : Key) (v : string)
| EUpsert (k : Key) (v : string)
| EDelete (k : Key).

Definition mutator_of (e : edit) : Mutator :=
  match e with
  | EInsert k v => Insert k v
  | EUpdate k v => Update k v
  | EUpsert k v => Upsert k v
  | EDelete k => Delete k
  end.

(** ** Mutators from outside the package

    [Mutator] is an exported interface: any type with a [Mutate] method
    is one. These two ignore the map they are given: one returns nil and
    no error, the other a map it holds and no error. *)
Definition give_nil : Mutator :=
  {| Mutate := λ _, mret (None, None) |}.

Definition give_back (q : ptr) : Mutator :=
  {| Mutate := λ _, mret (q, None) |}.

(** Whether the value an edit carries passes [checkValue]; [Delete]
    carries none. *)
Definition edit_valid (e : edit) : bool :=
  match e with
  | EInsert _ v | EUpdate _ v | EUpsert _ v => checkValue v
  | EDelete _ => true
  end.

(** ** The specification's reading of derivation

    These follow the words of the specification (sections 4.1 and 4.2),
    on tables as mathematical maps; they are what [NewMap] is compared
    with. *)

(** "sets k→v only if k is not already present; no-op otherwise" *)
Definition spec_insert (k : Key) (v : string) (tbl : gmap Key string) : gmap Key string :=
  if decide (is_Some (tbl !! k)) then tbl else <[k := v]> tbl.

(** "sets k→v only if k is already present; no-op otherwise" *)
Definition spec_update (k : Key) (v : string) (tbl : gmap Key string) : gmap Key string :=
  if decide (is_Some (tbl !! k)) then <[k := v]> tbl else tbl.

(** "sets k→v unconditionally, overwriting any prior value" *)
Definition spec_upsert (k : Key) (v : string) (tbl : gmap Key string) : gmap Key string :=
  <[k := v]> tbl.

(** "removes k if present; no-op otherwise" *)
Definition spec_delete (k : Key) (tbl : gmap Key string) : gmap Key string :=
  delete k tbl.

(** The primitive an edit performs once its value is accepted. *)
Definition spec_primitive (e : edit) (tbl : gmap Key string) : gmap Key string :=
  match e with
  | EInsert k v => spec_insert k v tbl
  | EUpdate k v => spec_update k v tbl
  | EUpsert k v => spec_upsert k v tbl
  | EDelete k => spec_delete k tbl
  end.

(** "validates value; on success calls [the primitive]; on failure
    returns InvalidValue error" *)
Definition spec_mutate (e : edit) (tbl : gmap Key string) : gmap Key string + error :=
  if edit_valid e then inl (spec_primitive e tbl) else inr errInvalid.

(** "applying mutators in the given order", failing "on the first
    mutator whose value fails the validity predicate". *)
Fixpoint spec_mutate_all (muts : list edit) (tbl : gmap Key string) : gmap Key string + error :=
  match muts with
  | [] => inl tbl
  | e :: rest =>
      match spec_mutate e tbl with
      | inl tbl' => spec_mutate_all rest tbl'
      | inr err => inr err
      end
  end.


(** "entries sorted by the key's display name (ascending, lexicographic),
    rendered as { {name1 value1}{name2 value2}... } with a leading and
    trailing space inside braces": the rendering of keys already in
    order. *)
Definition Serialize_of (tbl : gmap Key string) (keys : list Key) : string :=
  "{ " +:+ String.concat "" (fmt_tag tbl <$> keys) +:+ " }".

(** ** Auxiliary notions for the proofs *)

(** The table the mutator loop has built when it stops: after the last
    edit, or just before the first one that is refused. *)
Fixpoint reached (muts : list edit) (tbl : gmap Key string) : gmap Key string :=
  match muts with
  | [] => tbl
  | e :: rest =>
      if edit_valid e then reached rest (spec_primitive e tbl) else tbl
  end.

(** What [NewMap] hands back for an outcome of the mutator loop. *)
Definition outcome_of (l : loc) (r : gmap Key string + error) : ptr * option error :=
  match r with
  | inl _ => (Some l, None)
  | inr err => (None, Some err)
  end.

(** The tag map a context carries, read in a store. *)
Definition ancestor_of (ctx : context) (h : heap) : option (gmap Key string) :=
  l ← FromContext ctx; m <$> h !! l.

(** The table [NewMap] has built when its first loop ends. *)
Definition copied (ctx : context) (h : heap) : gmap Key string :=
  match ancestor_of ctx h with
  | Some a => foldl (λ acc kv, spec_insert kv.1 kv.2 acc) ∅ (range a)
  | None => ∅
  end.

(** Go has no dangling pointers: a map found in the context is allocated. *)
Definition context_ok (ctx : context) (h : heap) : Prop :=
  ∀ l, FromContext ctx = Some l → is_Some (h !! l).

(** ** Running the primitives on an allocated map *)

(** The key an edit names. *)
Definition edit_key (e : edit) : Key :=
  match e with
  | EInsert k _ | EUpdate k _ | EUpsert k _ | EDelete k => k
  end.

(** What an accepted edit makes of the entry of its key: [None] is an
    absent key. *)
Definition edit_entry (e : edit) (old : option string) : option string :=
  match e with
  | EInsert _ v => match old with Some v0 => Some v0 | None => Some v end
  | EUpdate _ v => match old with Some _ => Some v | None => None end
  | EUpsert _ v => Some v
  | EDelete _ => None
  end.

Ltac run_go :=
  unfold mbind, mret, Go_bind, Go_ret, bind, ret, load, store; simpl.

Lemma store_same (h : heap) l t : h !! l = Some t → <[l := mkMap (m t)]> h = h.
Proof. intros Hl. destruct t as [tbl]. by apply insert_id. Qed.

Lemma Map_Value_run (h : heap) l t k :
  h !! l = Some t →
  Map_Value (Some l) k h = Some ((default "" (m t !! k), bool_decide (is_Some (m t !! k))), h).
Proof.
  intros Hl. unfold Map_Value. run_go. rewrite Hl.
  by destruct (m t !! k) as [v|].
Qed.

Lemma Map_insert_run (h : heap) l t k v :
  h !! l = Some t →
  Map_insert (Some l) k v h = Some (tt, <[l := mkMap (spec_insert k v (m t))]> h).
Proof.
  intros Hl. unfold Map_insert, spec_insert. run_go. rewrite Hl.
  destruct (m t !! k) as [v0|] eqn:Hk.
  - rewrite decide_True by eauto. by rewrite store_same.
  - rewrite decide_False by (by intros [??]). by rewrite Hl.
Qed.

Lemma Map_update_run (h : heap) l t k v :
  h !! l = Some t →
  Map_update (Some l) k v h = Some (tt, <[l := mkMap (spec_update k v (m t))]> h).
Proof.
  intros Hl. unfold Map_update, spec_update. run_go. rewrite Hl.
  destruct (m t !! k) as [v0|] eqn:Hk.
  - rewrite decide_True by eauto. by rewrite Hl.
  - rewrite decide_False by (by intros [??]). by rewrite store_same.
Qed.

Lemma Map_upsert_run (h : heap) l t k v :
  h !! l = Some t →
  Map_upsert (Some l) k v h = Some (tt, <[l := mkMap (spec_upsert k v (m t))]> h).
Proof. intros Hl. unfold Map_upsert. run_go. by rewrite !Hl. Qed.

Lemma Map_delete_run (h : heap) l t k :
  h !! l = Some t →
  Map_delete (Some l) k h = Some (tt, <[l := mkMap (spec_delete k (m t))]> h).
Proof. intros Hl. unfold Map_delete. run_go. by rewrite !Hl. Qed.

(** A constructed mutator, run on an allocated map: it answers as the
    specification's [spec_mutate], writes the receiver only, and hands
    the receiver back. *)
Lemma Mutate_run (h : heap) l t e :
  h !! l = Some t →
  Mutate (mutator_of e) (Some l) h =
    Some (outcome_of l (spec_mutate e (m t)), <[l := mkMap (reached [e] (m t))]> h).
Proof.
  intros Hl. unfold spec_mutate.
  destruct e as [k v|k v|k v|k]; simpl; unfold mutator_Mutate; simpl;
    try (destruct (checkValue v); simpl; [|by rewrite store_same]).
  - unfold mbind, Go_bind, bind. by rewrite (Map_insert_run _ _ _ _ _ Hl).
  - unfold mbind, Go_bind, bind. by rewrite (Map_update_run _ _ _ _ _ Hl).
  - unfold mbind, Go_bind, bind. by rewrite (Map_upsert_run _ _ _ _ _ Hl).
  - unfold mbind, Go_bind, bind. by rewrite (Map_delete_run _ _ _ _ Hl).
Qed.

Lemma Mutate_valid (h : heap) l t e :
  h !! l = Some t →
  edit_valid e = true →
  Mutate (mutator_of e) (Some l) h =
    Some ((Some l, None), <[l := mkMap (spec_primitive e (m t))]> h).
Proof.
  intros Hl He. rewrite (Mutate_run _ _ _ _ Hl).
  unfold spec_mutate; simpl. by rewrite He.
Qed.

Lemma Mutate_invalid (h : heap) l t e :
  h !! l = Some t →
  edit_valid e = false →
  Mutate (mutator_of e) (Some l) h = Some ((None, Some errInvalid), h).
Proof.
  intros Hl He. rewrite (Mutate_run _ _ _ _ Hl).
  unfold spec_mutate; simpl. rewrite He. by rewrite store_same.
Qed.

(** ** The two loops of [NewMap] *)

Lemma reached_valid muts tbl tbl' :
  spec_mutate_all muts tbl = inl tbl' → reached muts tbl = tbl'.
Proof.
  revert tbl. induction muts as [|e rest IH]; intros tbl; simpl.
  - congruence.
  - unfold spec_mutate. destruct (edit_valid e); [apply IH | discriminate].
Qed.

Lemma apply_mutators_run (h : heap) l t muts :
  h !! l = Some t →
  apply_mutators (Some l) (mutator_of <$> muts) h =
    Some (outcome_of l (spec_mutate_all muts (m t)), <[l := mkMap (reached muts (m t))]> h).
Proof.
  revert h t. induction muts as [|e rest IH]; intros h t Hl; simpl.
  - by rewrite store_same.
  - unfold mbind, Go_bind, bind. rewrite (Mutate_run _ _ _ _ Hl).
    unfold spec_mutate; simpl. destruct (edit_valid e); simpl; [|done].
    erewrite IH by apply lookup_insert_eq. simpl.
    by rewrite insert_insert_eq.
Qed.

(** Once a mutator is refused the loop is over: what follows it in the
    argument list, whatever it is, is never called. *)
Lemma apply_mutators_stop (h : heap) l t pre bad (rest : list Mutator) :
  h !! l = Some t →
  Forall (λ e, edit_valid e = true) pre →
  edit_valid bad = false →
  apply_mutators (Some l) ((mutator_of <$> pre) ++ mutator_of bad :: rest) h =
    Some ((None, Some errInvalid), <[l := mkMap (reached pre (m t))]> h).
Proof.
  intros Hl Hpre Hbad. revert h t Hl.
  induction Hpre as [|e pre He Hpre IH]; intros h t Hl; simpl.
  - unfold mbind, Go_bind, bind. rewrite (Mutate_run _ _ _ _ Hl).
    unfold spec_mutate; simpl. by rewrite Hbad.
  - unfold mbind, Go_bind, bind. rewrite (Mutate_run _ _ _ _ Hl).
    unfold spec_mutate; simpl. rewrite He; simpl.
    erewrite IH by apply lookup_insert_eq. simpl.
    by rewrite insert_insert_eq.
Qed.

Lemma copy_entries_run (h : heap) l t entries :
  h !! l = Some t →
  copy_entries (Some l) entries h =
    Some (tt, <[l := mkMap (foldl (λ acc kv, spec_insert kv.1 kv.2 acc) (m t) entries)]> h).
Proof.
  revert h t. induction entries as [|[k v] rest IH]; intros h t Hl; simpl.
  - by rewrite store_same.
  - unfold mbind, Go_bind, bind. rewrite (Map_insert_run _ _ _ _ _ Hl).
    erewrite IH by apply lookup_insert_eq. simpl.
    by rewrite insert_insert_eq.
Qed.

(** Insert-if-absent over a list of entries keeps what is there and adds,
    of the entries of each new key, the first. *)
Lemma foldl_spec_insert entries (acc : gmap Key string) :
  foldl (λ acc kv, spec_insert kv.1 kv.2 acc) acc entries = acc ∪ list_to_map entries.
Proof.
  revert acc. induction entries as [|[k v] rest IH]; intros acc; simpl.
  - by rewrite (right_id_L ∅ (∪)).
  - rewrite IH. apply map_eq. intros i. unfold spec_insert.
    rewrite !lookup_union. case_decide as Hk.
    + destruct Hk as [v0 Hk]. destruct (decide (k = i)) as [->|Hne].
      * rewrite Hk. rewrite lookup_insert_eq. by destruct (list_to_map rest !! i).
      * by rewrite lookup_insert_ne.
    + destruct (decide (k = i)) as [->|Hne].
      * rewrite !lookup_insert_eq.
        destruct (acc !! i) eqn:Hi; [by destruct Hk; eauto|].
        by destruct (list_to_map rest !! i).
      * by rewrite !lookup_insert_ne.
Qed.

(** Copying a whole table into an empty one, in whatever order [range]
    visits it, yields that table. *)
Lemma copy_range (tbl : gmap Key string) :
  foldl (λ acc kv, spec_insert kv.1 kv.2 acc) ∅ (range tbl) = tbl.
Proof.
  rewrite foldl_spec_insert, (left_id_L ∅ (∪)).
  rewrite <-(list_to_map_to_list tbl) at 2. symmetry.
  apply list_to_map_proper; [apply NoDup_fst_map_to_list|].
  symmetry. apply range_perm.
Qed.



(** [NewMap] up to its second loop: a new map is all that the store
    gains. *)
Lemma NewMap_copy ctx (mods : list Mutator) (h : heap) :
  context_ok ctx h →
  NewMap ctx mods h =
    apply_mutators (Some (fresh (dom h))) mods
      (<[fresh (dom h) := mkMap (copied ctx h)]> h).
Proof.
  intros Hctx. unfold NewMap, newMap, alloc, copied, ancestor_of.
  unfold mbind at 1, Go_bind at 1, bind at 1.
  set (l' := fresh (dom h)).
  assert (h !! l' = None) as Hfresh by (apply not_elem_of_dom, is_fresh).
  destruct (FromContext ctx) as [l|] eqn:Horig; simpl.
  - destruct (Hctx l Horig) as [t Hl]. rewrite Hl; simpl.
    assert (l ≠ l') as Hne by congruence.
    unfold mbind, Go_bind, bind, load.
    rewrite lookup_insert_ne, Hl by done.
    erewrite copy_entries_run by apply lookup_insert_eq. simpl.
    by rewrite insert_insert_eq.
  - done.
Qed.

(** That new map holds the ancestor's entries. *)
Lemma copied_ancestor ctx (h : heap) :
  copied ctx h = default ∅ (ancestor_of ctx h).
Proof. unfold copied. destruct (ancestor_of ctx h); simpl; by rewrite ?copy_range. Qed.

Lemma NewMap_run ctx muts (h : heap) :
  context_ok ctx h →
  NewMap ctx (mutator_of <$> muts) h =
    Some (outcome_of (fresh (dom h)) (spec_mutate_all muts (copied ctx h)),
          <[fresh (dom h) := mkMap (reached muts (copied ctx h))]> h).
Proof.
  intros Hctx. rewrite NewMap_copy by done.
  erewrite apply_mutators_run by apply lookup_insert_eq. simpl.
  by rewrite insert_insert_eq.
Qed.

(** ** The mutators, one at a time *)

(** C4. On a map that already holds [k ↦ v0], the [Insert k v1] mutator
    with a valid [v1] succeeds, hands the map back, and a lookup of [k]
    still answers [v0]; the map is in fact left as it was. *)
Theorem Insert_keeps_present (h : heap) l t k v0 v1 :
  h !! l = Some t →
  m t !! k = Some v0 →
  checkValue v1 = true →
  ∃ h', Mutate (Insert k v1) (Some l) h = Some ((Some l, None), h') ∧
        Map_Value (Some l) k h' = Some ((v0, true), h') ∧
        h' = h.
Proof.
  intros Hl Hk Hv. exists h. split; [|split; [|done]].
  - change (Insert k v1) with (mutator_of (EInsert k v1)).
    erewrite Mutate_valid by (exact Hl || exact Hv). simpl.
    unfold spec_insert. by rewrite decide_True, store_same by eauto.
  - by rewrite (Map_Value_run _ _ _ _ Hl), Hk.
Qed.

(** C5. On a map that does not hold [k], the [Update k v] mutator with a
    valid [v] succeeds, hands the map back, and [k] is still absent. *)
Theorem Update_keeps_absent (h : heap) l t k v :
  h !! l = Some t →
  m t !! k = None →
  checkValue v = true →
  ∃ h', Mutate (Update k v) (Some l) h = Some ((Some l, None), h') ∧
        Map_Value (Some l) k h' = Some (("", false), h') ∧
        h' = h.
Proof.
  intros Hl Hk Hv. exists h. split; [|split; [|done]].
  - change (Update k v) with (mutator_of (EUpdate k v)).
    erewrite Mutate_valid by (exact Hl || exact Hv). simpl.
    unfold spec_update.
    rewrite decide_False by (rewrite Hk; by intros [??]).
    by rewrite store_same.
  - by rewrite (Map_Value_run _ _ _ _ Hl), Hk.
Qed.

(** The primitive [upsert] takes any value. *)
Lemma Map_upsert_Value (h : heap) l t k v :
  h !! l = Some t →
  ∃ h', Map_upsert (Some l) k v h = Some (tt, h') ∧
        Map_Value (Some l) k h' = Some ((v, true), h').
Proof.
  intros Hl. eexists. split; [by apply Map_upsert_run|].
  erewrite Map_Value_run by apply lookup_insert_eq. simpl.
  unfold spec_upsert. by rewrite lookup_insert_eq.
Qed.

(** C6, amended. For a valid [v], the [Upsert k v] mutator succeeds and a
    lookup of [k] then answers [(v, true)], whether or not [k] was there
    before. *)
Theorem Upsert_valid_Value (h : heap) l t k v :
  h !! l = Some t →
  checkValue v = true →
  ∃ h', Mutate (Upsert k v) (Some l) h = Some ((Some l, None), h') ∧
        Map_Value (Some l) k h' = Some ((v, true), h').
Proof.
  intros Hl Hv. eexists. split.
  - exact (Mutate_valid h l t (EUpsert k v) Hl Hv).
  - erewrite Map_Value_run by apply lookup_insert_eq. simpl.
    unfold spec_upsert. by rewrite lookup_insert_eq.
Qed.

(** C7. For a valid [v], running the [Upsert k v] mutator a second time
    changes nothing: the store after two runs is the store after one, so
    every lookup answers the same. *)
Theorem Upsert_idempotent (h : heap) l t k v :
  h !! l = Some t →
  checkValue v = true →
  ∃ h1 h2,
    Mutate (Upsert k v) (Some l) h = Some ((Some l, None), h1) ∧
    Mutate (Upsert k v) (Some l) h1 = Some ((Some l, None), h2) ∧
    h2 = h1 ∧
    ∀ k', Map_Value (Some l) k' h2 = Map_Value (Some l) k' h1.
Proof.
  intros Hl Hv.
  set (h1 := <[l := mkMap (spec_upsert k v (m t))]> h).
  assert (h1 !! l = Some (mkMap (spec_upsert k v (m t)))) as Hl1
    by apply lookup_insert_eq.
  exists h1, h1. split; [|split; [|done]].
  - exact (Mutate_valid h l t (EUpsert k v) Hl Hv).
  - change (Upsert k v) with (mutator_of (EUpsert k v)).
    erewrite Mutate_valid by (exact Hl1 || exact Hv). simpl.
    unfold h1, spec_upsert. by rewrite insert_insert_eq, insert_insert_eq.
Qed.

(** C9. The [Delete k] mutator returns no error, hands the map back, and
    a lookup of [k] then answers not found, whether or not [k] was there
    before. *)
Theorem Delete_Value (h : heap) l t k :
  h !! l = Some t →
  ∃ h', Mutate (Delete k) (Some l) h = Some ((Some l, None), h') ∧
        Map_Value (Some l) k h' = Some (("", false), h').
Proof.
  intros Hl. eexists. split.
  - simpl. unfold mutator_Mutate; simpl. unfold mbind, Go_bind, bind.
    by rewrite (Map_delete_run _ _ _ _ Hl).
  - erewrite Map_Value_run by apply lookup_insert_eq. simpl.
    unfold spec_delete. by rewrite lookup_delete_eq.
Qed.

(** ** [NewMap] *)

Lemma first_invalid muts :
  Exists (λ e, edit_valid e = false) muts →
  ∃ pre bad post,
    muts = pre ++ bad :: post ∧
    Forall (λ e, edit_valid e = true) pre ∧
    edit_valid bad = false.
Proof.
  induction muts as [|e rest IH]; intros Hex; [by inv Hex|].
  destruct (edit_valid e) eqn:He.
  - destruct IH as (pre & bad & post & -> & Hpre & Hbad).
    { inv Hex; [congruence|done]. }
    exists (e :: pre), bad, post. split; [done|]. split; [by constructor|done].
  - by exists [], e, rest.
Qed.

(** C1, amended. For a sequence of mutators built by the four
    constructors: if some mutator of the sequence carries an invalid
    value, the sequence splits at the first such one, [NewMap] returns no map and
    [errInvalid], whatever follows that mutator is not run (the result
    and the store are the same for any continuation of the argument
    list), and nothing the caller can reach shows the earlier edits: the
    store is the one left by the edits before it, in which every map
    that existed is as it was. *)
Theorem NewMap_invalid_stops ctx muts (h : heap) :
  context_ok ctx h →
  Exists (λ e, edit_valid e = false) muts →
  ∃ pre bad post h',
    muts = pre ++ bad :: post ∧
    Forall (λ e, edit_valid e = true) pre ∧
    edit_valid bad = false ∧
    NewMap ctx (mutator_of <$> muts) h = Some ((None, Some errInvalid), h') ∧
    (∀ rest : list Mutator,
       NewMap ctx ((mutator_of <$> pre) ++ mutator_of bad :: rest) h =
         Some ((None, Some errInvalid), h')) ∧
    (∃ l', NewMap ctx (mutator_of <$> pre) h = Some ((Some l', None), h')) ∧
    (∀ l, is_Some (h !! l) → h' !! l = h !! l).
Proof.
  intros Hctx Hex.
  destruct (first_invalid muts Hex) as (pre & bad & post & -> & Hpre & Hbad).
  set (l' := fresh (dom h)).
  set (start := copied ctx h).
  exists pre, bad, post, (<[l' := mkMap (reached pre start)]> h).
  assert (∀ rest : list Mutator,
    NewMap ctx ((mutator_of <$> pre) ++ mutator_of bad :: rest) h =
      Some ((None, Some errInvalid), <[l' := mkMap (reached pre start)]> h)) as Hstop.
  { intros rest. rewrite NewMap_copy by done.
    erewrite apply_mutators_stop by (apply lookup_insert_eq || done). simpl.
    by rewrite insert_insert_eq. }
  split; [done|]. split; [done|]. split; [done|].
  split; [rewrite fmap_app, fmap_cons; apply Hstop|].
  split; [done|]. split.
  - exists l'. rewrite NewMap_run by done. f_equal. f_equal.
    fold start.
    assert (∀ tbl, spec_mutate_all pre tbl = inl (reached pre tbl)) as Hok.
    { clear -Hpre. induction Hpre as [|e pre He _ IH]; intros tbl; simpl; [done|].
      unfold spec_mutate. rewrite He. apply IH. }
    by rewrite Hok.
  - intros l Hl. apply lookup_insert_ne. intros <-.
    apply (is_fresh (dom h)), elem_of_dom, Hl.
Qed.


(** C3, amended. Whatever the mutators, as long as the four constructors
    built them, and whether [NewMap] succeeds or fails, the map found in
    the context is the same object with the same table
    afterwards, every lookup on it answers as before, and the map
    returned, if any, is another object. *)
Theorem NewMap_ancestor_unchanged ctx muts (h : heap) l t :
  FromContext ctx = Some l →
  h !! l = Some t →
  ∃ r h',
    NewMap ctx (mutator_of <$> muts) h = Some (r, h') ∧
    h' !! l = Some t ∧
    (∀ k, fst <$> Map_Value (Some l) k h' = fst <$> Map_Value (Some l) k h) ∧
    r.1 ≠ Some l.
Proof.
  intros Horig Hl.
  assert (context_ok ctx h) as Hctx.
  { intros l0 Hl0. rewrite Horig in Hl0. injection Hl0 as <-. eauto. }
  assert (l ≠ fresh (dom h)) as Hne.
  { intros ->. apply (is_fresh (dom h)), elem_of_dom. eauto. }
  eexists _, _. split; [by apply NewMap_run|].
  assert (<[fresh (dom h) := mkMap (reached muts (copied ctx h))]> h !! l = Some t)
    as Hl' by (by rewrite lookup_insert_ne).
  split; [done|]. split.
  - intros k. by rewrite (Map_Value_run _ _ _ _ Hl'), (Map_Value_run _ _ _ _ Hl).
  - destruct (spec_mutate_all _ _); simpl; congruence.
Qed.

(** ** [String] *)

(** Go compares strings byte by byte; so does [String.ltb]. It is a
    strict total order. *)
Lemma string_ltb_lt (a b : string) :
  String.ltb a b = true ↔ String_as_OT.lt a b.
Proof.
  rewrite <-String_as_OT.cmp_lt. unfold String.ltb, String_as_OT.cmp.
  destruct (String.compare a b); split; congruence.
Qed.

Lemma string_ltb_ge (a b : string) :
  String.ltb a b = false ↔ a = b ∨ String_as_OT.lt b a.
Proof.
  rewrite <-(String_as_OT.cmp_lt b a), <-(String_as_OT.cmp_eq a b).
  rewrite (String_as_OT.cmp_antisym b a).
  unfold String.ltb, String_as_OT.cmp.
  destruct (String.compare a b); simpl; split; try congruence; auto.
  intros [|]; congruence.
Qed.

Lemma string_ltb_irrefl (a : string) : String.ltb a a = false.
Proof. apply string_ltb_ge. by left. Qed.

Lemma string_ltb_trans (a b c : string) :
  String.ltb a b = true → String.ltb b c = true → String.ltb a c = true.
Proof. rewrite !string_ltb_lt. apply String_as_OT.lt_trans. Qed.

Lemma string_ltb_ge_trans (a b c : string) :
  String.ltb a b = false → String.ltb b c = false → String.ltb a c = false.
Proof.
  rewrite !string_ltb_ge. intros [->|Hba] [->|Hcb]; auto.
  right. by apply (String_as_OT.lt_trans c b a).
Qed.

Lemma string_ltb_ge_antisym (a b : string) :
  String.ltb a b = false → String.ltb b a = false → a = b.
Proof.
  intros Hab Hba.
  destruct (proj1 (string_ltb_ge _ _) Hab) as [?|Hlt]; [done|].
  destruct (proj1 (string_ltb_ge _ _) Hba) as [?|Hlt']; [done|].
  destruct (String_as_OT.lt_not_eq a a); [|done].
  by apply (String_as_OT.lt_trans a b a).
Qed.

Lemma string_ltb_connex (a b : string) :
  a ≠ b → String.ltb b a = false → String.ltb a b = true.
Proof.
  intros Hne Hba. destruct (String.ltb a b) eqn:Hab; [done|].
  destruct Hne. by apply string_ltb_ge_antisym.
Qed.

(** The [less] that [String] hands to [sort.Slice] meets the contract's
    requirement. *)
Lemma less_by_Name_order :
  strict_weak_order (λ i j, String.ltb (Name i) (Name j)).
Proof.
  split; [|split].
  - intros a. apply string_ltb_irrefl.
  - intros a b c. apply string_ltb_trans.
  - intros a b c. apply string_ltb_ge_trans.
Qed.

Lemma append_nil_r (a : string) : a +:+ "" = a.
Proof.
  induction a as [|c a IH]; [done|].
  change (String c (a +:+ "") = String c a). by rewrite IH.
Qed.

Lemma append_assoc (a b c : string) : (a +:+ b) +:+ c = a +:+ (b +:+ c).
Proof.
  induction a as [|x a IH]; [done|].
  change (String x ((a +:+ b) +:+ c) = String x (a +:+ (b +:+ c))). by rewrite IH.
Qed.

Lemma concat_cons (a : string) (l : list string) :
  String.concat "" (a :: l) = a +:+ String.concat "" l.
Proof. destruct l; simpl; by rewrite ?append_nil_r. Qed.

(** Writing the pieces to the buffer one after the other. *)
Lemma buffer_writes (f : Key → string) (buffer : string) keys :
  foldl (λ buf k, buf +:+ f k) buffer keys = buffer +:+ String.concat "" (f <$> keys).
Proof.
  revert buffer. induction keys as [|k keys IH]; intros buffer.
  - simpl. by rewrite append_nil_r.
  - rewrite fmap_cons, concat_cons. simpl. by rewrite IH, append_assoc.
Qed.

Lemma Map_String_run (h : heap) l t :
  h !! l = Some t →
  Map_String (Some l) h =
    Some (Serialize_of (m t)
            (sort_Slice ((range (m t)).*1) (λ i j, String.ltb (Name i) (Name j))), h).
Proof.
  intros Hl. unfold Map_String, Serialize_of.
  unfold mbind, mret, Go_bind, Go_ret, bind, ret, load. rewrite Hl.
  by rewrite buffer_writes, append_assoc.
Qed.

(** The keys [String] renders: those of the table, each once, no name
    before a smaller one. *)
Lemma sorted_keys_spec (tbl : gmap Key string) :
  let keys := sort_Slice ((range tbl).*1) (λ i j, String.ltb (Name i) (Name j)) in
  keys ≡ₚ (map_to_list tbl).*1 ∧
  StronglySorted (λ a b, String.ltb (Name b) (Name a) = false) keys.
Proof.
  split.
  - by rewrite sort_Slice_perm, range_perm.
  - apply (sort_Slice_sorted _ _ less_by_Name_order).
Qed.

(** C10. The string of a map without entries is exactly an opening
    brace, two spaces and a closing brace. *)
Theorem Map_String_empty (h : heap) l t :
  h !! l = Some t →
  m t = ∅ →
  Map_String (Some l) h = Some ("{  }", h).
Proof.
  intros Hl Hempty. rewrite (Map_String_run _ _ _ Hl), Hempty.
  set (less := λ i j, String.ltb (Name i) (Name j)).
  assert (sort_Slice ((range ∅).*1) less = []) as ->; [|done].
  apply Permutation_nil_r.
  by rewrite sort_Slice_perm, range_perm, map_to_list_empty.
Qed.

(** ** Further properties of the mutators *)

(** An accepted edit rewrites the entry of its key and no other. *)
Lemma lookup_spec_primitive e (tbl : gmap Key string) i :
  spec_primitive e tbl !! i =
    if decide (edit_key e = i) then edit_entry e (tbl !! i) else tbl !! i.
Proof.
  destruct e as [k v|k v|k v|k]; simpl;
    unfold spec_insert, spec_update, spec_upsert, spec_delete;
    (destruct (decide (k = i)) as [->|Hne];
       [destruct (tbl !! i) as [v0|] eqn:Hi|]);
    repeat case_decide as Hd;
    rewrite ?lookup_insert_eq, ?lookup_delete_eq, ?lookup_insert_ne, ?lookup_delete_ne
      by done;
    try done;
    solve [ destruct Hd; eauto | by destruct Hd ].
Qed.

(** X1. Insert on a key the map does not hold: with a valid value the mutator
    succeeds and a lookup of the key then answers that value. *)
Theorem Insert_absent_Value (h : heap) l t k v :
  h !! l = Some t →
  m t !! k = None →
  checkValue v = true →
  ∃ h', Mutate (Insert k v) (Some l) h = Some ((Some l, None), h') ∧
        Map_Value (Some l) k h' = Some ((v, true), h').
Proof.
  intros Hl Hk Hv. eexists. split.
  - exact (Mutate_valid h l t (EInsert k v) Hl Hv).
  - erewrite Map_Value_run by apply lookup_insert_eq. cbn [m].
    by rewrite lookup_spec_primitive, decide_True, Hk by done.
Qed.

(** X2. Update on a key the map holds: with a valid value the mutator
    succeeds and a lookup of the key then answers the new value. *)
Theorem Update_present_Value (h : heap) l t k v0 v :
  h !! l = Some t →
  m t !! k = Some v0 →
  checkValue v = true →
  ∃ h', Mutate (Update k v) (Some l) h = Some ((Some l, None), h') ∧
        Map_Value (Some l) k h' = Some ((v, true), h').
Proof.
  intros Hl Hk Hv. eexists. split.
  - exact (Mutate_valid h l t (EUpdate k v) Hl Hv).
  - erewrite Map_Value_run by apply lookup_insert_eq. cbn [m].
    by rewrite lookup_spec_primitive, decide_True, Hk by done.
Qed.

(** X3. A value [checkValue] refuses is refused before the map is looked at:
    whatever the receiver (nil included) and the store, the three
    value-carrying mutators return no map and [errInvalid] and leave the
    store alone. *)
Theorem invalid_value_refused (p : ptr) (h : heap) k v :
  checkValue v = false →
  Mutate (Insert k v) p h = Some ((None, Some errInvalid), h) ∧
  Mutate (Update k v) p h = Some ((None, Some errInvalid), h) ∧
  Mutate (Upsert k v) p h = Some ((None, Some errInvalid), h).
Proof.
  intros Hv. simpl. unfold mutator_Mutate. simpl. by rewrite Hv.
Qed.

(** X4. On a nil map every mutator whose value is accepted panics, and so do
    [Value] and [String]: each dereferences its receiver. *)
Theorem nil_receiver_panics_all (h : heap) e k :
  edit_valid e = true →
  Mutate (mutator_of e) None h = None ∧
  Map_Value None k h = None ∧
  Map_String None h = None.
Proof.
  intros He. split; [|done].
  destruct e as [k' v|k' v|k' v|k']; simpl in *; unfold mutator_Mutate; simpl;
    by rewrite ?He.
Qed.

(** X5. A constructed mutator leaves every key but its own as it was: a
    lookup of another key answers the same before and after. *)
Theorem Mutate_other_keys (h : heap) l t e k' :
  h !! l = Some t →
  edit_key e ≠ k' →
  ∃ r h', Mutate (mutator_of e) (Some l) h = Some (r, h') ∧
          fst <$> Map_Value (Some l) k' h' = fst <$> Map_Value (Some l) k' h.
Proof.
  intros Hl Hne. eexists _, _. split; [exact (Mutate_run h l t e Hl)|].
  erewrite Map_Value_run by apply lookup_insert_eq.
  rewrite (Map_Value_run _ _ _ _ Hl). cbn [m reached].
  destruct (edit_valid e); [|done].
  by rewrite lookup_spec_primitive, decide_False by done.
Qed.

(** X6. A constructed mutator writes its receiver only, allocates nothing, and
    hands back the very map it was given or, on a refused value, none. *)
Theorem Mutate_only_receiver (h : heap) l t e :
  h !! l = Some t →
  ∃ r h', Mutate (mutator_of e) (Some l) h = Some (r, h') ∧
          (r = (Some l, None) ∨ r = (None, Some errInvalid)) ∧
          dom h' = dom h ∧
          ∀ l', l' ≠ l → h' !! l' = h !! l'.
Proof.
  intros Hl. eexists _, _. split; [exact (Mutate_run h l t e Hl)|].
  split; [|split].
  - unfold spec_mutate. destruct (edit_valid e); simpl; auto.
  - apply dom_insert_lookup_L. destruct (edit_valid e); eauto.
  - intros l' Hne. by rewrite lookup_insert_ne.
Qed.

(** ** Further properties of [NewMap] *)

Lemma spec_mutate_all_app muts1 muts2 (tbl : gmap Key string) :
  spec_mutate_all (muts1 ++ muts2) tbl =
    match spec_mutate_all muts1 tbl with
    | inl tbl' => spec_mutate_all muts2 tbl'
    | inr err => inr err
    end.
Proof.
  revert tbl. induction muts1 as [|e rest IH]; intros tbl; simpl; [done|].
  destruct (spec_mutate e tbl); [apply IH | done].
Qed.

Lemma reached_app muts1 muts2 (tbl tbl' : gmap Key string) :
  spec_mutate_all muts1 tbl = inl tbl' →
  reached (muts1 ++ muts2) tbl = reached muts2 tbl'.
Proof.
  revert tbl. induction muts1 as [|e rest IH]; intros tbl; simpl.
  - by intros [= ->].
  - unfold spec_mutate. destruct (edit_valid e); [apply IH | discriminate].
Qed.

Lemma spec_mutate_all_cases muts (tbl : gmap Key string) :
  (Forall (λ e, edit_valid e = true) muts ∧ ∃ tbl', spec_mutate_all muts tbl = inl tbl') ∨
  (Exists (λ e, edit_valid e = false) muts ∧ spec_mutate_all muts tbl = inr errInvalid).
Proof.
  revert tbl. induction muts as [|e rest IH]; intros tbl; simpl.
  - left. split; [constructor | eauto].
  - unfold spec_mutate. destruct (edit_valid e) eqn:He.
    + destruct (IH (spec_primitive e tbl)) as [[Hall Hok]|[Hex Herr]].
      * left. split; [by constructor | done].
      * right. split; [by apply Exists_cons_tl | done].
    + right. split; [by apply Exists_cons_hd | done].
Qed.

Lemma spec_mutate_all_valid muts (tbl : gmap Key string) :
  Forall (λ e, edit_valid e = true) muts →
  spec_mutate_all muts tbl = inl (foldl (λ acc e, spec_primitive e acc) tbl muts).
Proof.
  intros Hall. revert tbl. induction Hall as [|e rest He _ IH]; intros tbl; simpl; [done|].
  unfold spec_mutate. rewrite He. apply IH.
Qed.

(** Constructed mutators at the head of an argument list, whatever
    follows them. *)
Lemma apply_mutators_prefix (h : heap) l t muts (rest : list Mutator) :
  h !! l = Some t →
  apply_mutators (Some l) ((mutator_of <$> muts) ++ rest) h =
    match spec_mutate_all muts (m t) with
    | inl tbl => apply_mutators (Some l) rest (<[l := mkMap tbl]> h)
    | inr err => Some ((None, Some err), <[l := mkMap (reached muts (m t))]> h)
    end.
Proof.
  revert h t. induction muts as [|e muts IH]; intros h t Hl; simpl.
  - by rewrite store_same.
  - unfold mbind, Go_bind, bind. rewrite (Mutate_run _ _ _ _ Hl).
    unfold spec_mutate; simpl. destruct (edit_valid e); simpl; [|done].
    erewrite IH by apply lookup_insert_eq. simpl.
    destruct (spec_mutate_all muts _); by rewrite insert_insert_eq.
Qed.

(** Two runs of accepted mutators that build the same table from every
    table can stand for each other anywhere in an argument list. *)
Lemma NewMap_replace ctx pre muts1 muts2 (post : list Mutator) (h : heap) :
  context_ok ctx h →
  Forall (λ e, edit_valid e = true) muts1 →
  Forall (λ e, edit_valid e = true) muts2 →
  (∀ tbl, foldl (λ acc e, spec_primitive e acc) tbl muts1 =
          foldl (λ acc e, spec_primitive e acc) tbl muts2) →
  NewMap ctx ((mutator_of <$> pre) ++ (mutator_of <$> muts1) ++ post) h =
  NewMap ctx ((mutator_of <$> pre) ++ (mutator_of <$> muts2) ++ post) h.
Proof.
  intros Hctx Hv1 Hv2 Hsame. rewrite !NewMap_copy by done.
  erewrite !(apply_mutators_prefix _ _ _ pre) by apply lookup_insert_eq. simpl.
  destruct (spec_mutate_all pre _) as [tbl|err]; [|done].
  erewrite !apply_mutators_prefix by apply lookup_insert_eq. simpl.
  by rewrite !spec_mutate_all_valid, Hsame by done.
Qed.

Lemma reached_other muts (tbl : gmap Key string) k :
  Forall (λ e, edit_key e ≠ k) muts →
  reached muts tbl !! k = tbl !! k.
Proof.
  intros Hall. revert tbl. induction Hall as [|e rest He _ IH]; intros tbl; simpl; [done|].
  destruct (edit_valid e); [|done].
  by rewrite IH, lookup_spec_primitive, decide_False.
Qed.

(** X7. With no mutators [NewMap] returns a copy: a map that did not exist
    before, holding exactly the table of the map found in the context,
    or the empty table when there is none. *)
Theorem NewMap_no_mutators_copies ctx (h : heap) :
  context_ok ctx h →
  ∃ l' h',
    NewMap ctx [] h = Some ((Some l', None), h') ∧
    h !! l' = None ∧
    h' !! l' = Some (mkMap (default ∅ (ancestor_of ctx h))).
Proof.
  intros Hctx. exists (fresh (dom h)). eexists.
  split; [exact (NewMap_copy ctx [] h Hctx)|]. split.
  - apply not_elem_of_dom, is_fresh.
  - by rewrite lookup_insert_eq, copied_ancestor.
Qed.

(** X8. [NewMap] on constructed mutators has exactly two outcomes: a map and
    no error when every value is valid, no map and [errInvalid] when some
    value is not. It does not panic. *)
Theorem NewMap_outcomes ctx muts (h : heap) :
  context_ok ctx h →
  ∃ r h',
    NewMap ctx (mutator_of <$> muts) h = Some (r, h') ∧
    ((Forall (λ e, edit_valid e = true) muts ∧ ∃ l', r = (Some l', None)) ∨
     (Exists (λ e, edit_valid e = false) muts ∧ r = (None, Some errInvalid))).
Proof.
  intros Hctx. eexists _, _. split; [exact (NewMap_run ctx muts h Hctx)|].
  destruct (spec_mutate_all_cases muts (copied ctx h)) as [[Hall [tbl ->]]|[Hex ->]].
  - left. split; [done|]. by eexists.
  - right. by split.
Qed.

(** X9. On mutators built by the four constructors [NewMap] writes no map
    but the one it creates: every other address of the store holds
    afterwards what it held before, and the map returned, if any, is the
    new one. *)
Theorem NewMap_writes_only_new ctx muts (h : heap) :
  context_ok ctx h →
  ∃ r h' l',
    NewMap ctx (mutator_of <$> muts) h = Some (r, h') ∧
    h !! l' = None ∧
    (r.1 = Some l' ∨ r.1 = None) ∧
    ∀ l, l ≠ l' → h' !! l = h !! l.
Proof.
  intros Hctx. eexists _, _, (fresh (dom h)).
  split; [exact (NewMap_run ctx muts h Hctx)|]. split; [|split].
  - apply not_elem_of_dom, is_fresh.
  - destruct (spec_mutate_all _ _); simpl; auto.
  - intros l Hne. by rewrite lookup_insert_ne.
Qed.

(** X10. A key that no mutator names is inherited: on success a lookup of it
    in the new map answers what the ancestor's table holds for it (not
    found when there is no ancestor). *)
Theorem NewMap_untouched_key ctx muts (h : heap) k l' h' :
  context_ok ctx h →
  Forall (λ e, edit_key e ≠ k) muts →
  NewMap ctx (mutator_of <$> muts) h = Some ((Some l', None), h') →
  Map_Value (Some l') k h' =
    Some ((default "" (default ∅ (ancestor_of ctx h) !! k),
           bool_decide (is_Some (default ∅ (ancestor_of ctx h) !! k))), h').
Proof.
  intros Hctx Hkeys Hrun. rewrite (NewMap_run ctx muts h Hctx) in Hrun.
  injection Hrun as Hout <-.
  assert (l' = fresh (dom h)) as ->.
  { destruct (spec_mutate_all _ _); simpl in Hout; congruence. }
  erewrite Map_Value_run by apply lookup_insert_eq. cbn [m].
  by rewrite (reached_other _ _ _ Hkeys), copied_ancestor.
Qed.

(** X11. Deriving in two steps is deriving in one: if [NewMap] with a first
    list succeeds and its result is the map a second context carries,
    then [NewMap] from that context with a second list ends as [NewMap]
    from the first context with the two lists joined: the same error or
    none, and on success the same table. *)
Theorem NewMap_compose ctx ctx1 muts1 muts2 (h h1 : heap) l1 :
  context_ok ctx h →
  NewMap ctx (mutator_of <$> muts1) h = Some ((Some l1, None), h1) →
  FromContext ctx1 = Some l1 →
  ∃ r2 h2 r12 h12,
    NewMap ctx1 (mutator_of <$> muts2) h1 = Some (r2, h2) ∧
    NewMap ctx (mutator_of <$> (muts1 ++ muts2)) h = Some (r12, h12) ∧
    r2.2 = r12.2 ∧
    ∀ l2 l12, r2.1 = Some l2 → r12.1 = Some l12 → h2 !! l2 = h12 !! l12.
Proof.
  intros Hctx Hrun Horig. rewrite (NewMap_run ctx muts1 h Hctx) in Hrun.
  injection Hrun as Hout <-.
  destruct (spec_mutate_all muts1 (copied ctx h)) as [tbl1|err] eqn:Hall;
    simpl in Hout; [|discriminate].
  injection Hout as <-.
  rewrite (reached_valid _ _ _ Hall).
  set (h1 := <[fresh (dom h) := mkMap tbl1]> h).
  assert (h1 !! fresh (dom h) = Some (mkMap tbl1)) as Hl1 by apply lookup_insert_eq.
  assert (context_ok ctx1 h1) as Hctx1.
  { intros l0 Hl0. rewrite Horig in Hl0. injection Hl0 as <-. eauto. }
  assert (copied ctx1 h1 = tbl1) as Hcopied.
  { rewrite copied_ancestor. unfold ancestor_of. rewrite Horig. simpl. by rewrite Hl1. }
  eexists _, _, _, _.
  split; [exact (NewMap_run ctx1 muts2 h1 Hctx1)|].
  split; [exact (NewMap_run ctx (muts1 ++ muts2) h Hctx)|].
  rewrite Hcopied, spec_mutate_all_app, Hall, (reached_app _ _ _ _ Hall).
  split.
  - by destruct (spec_mutate_all muts2 tbl1).
  - intros l2 l12 H2 H12.
    destruct (spec_mutate_all muts2 tbl1); simpl in *; [|discriminate].
    injection H2 as <-. injection H12 as <-.
    by rewrite !lookup_insert_eq.
Qed.

(** ** How the mutators compose

    Each law holds inside any argument list of [NewMap]: after any
    constructed mutators, before any mutators at all, with results and
    stores equal. *)

(** X12. [Delete] then [Insert] of a key is [Upsert] of it. *)
Theorem Delete_Insert_is_Upsert ctx pre k v (post : list Mutator) (h : heap) :
  context_ok ctx h →
  checkValue v = true →
  NewMap ctx ((mutator_of <$> pre) ++ Delete k :: Insert k v :: post) h =
  NewMap ctx ((mutator_of <$> pre) ++ Upsert k v :: post) h.
Proof.
  intros Hctx Hv.
  apply (NewMap_replace ctx pre [EDelete k; EInsert k v] [EUpsert k v] post h Hctx);
    [by repeat constructor..|].
  intros tbl. cbn [foldl]. apply map_eq. intros i.
  rewrite !lookup_spec_primitive. cbn [edit_key edit_entry].
  repeat case_decide; subst; try done; by destruct (tbl !! i).
Qed.

(** X13. [Insert] then [Update] of a key with one value is [Upsert] of it. *)
Theorem Insert_Update_is_Upsert ctx pre k v (post : list Mutator) (h : heap) :
  context_ok ctx h →
  checkValue v = true →
  NewMap ctx ((mutator_of <$> pre) ++ Insert k v :: Update k v :: post) h =
  NewMap ctx ((mutator_of <$> pre) ++ Upsert k v :: post) h.
Proof.
  intros Hctx Hv.
  apply (NewMap_replace ctx pre [EInsert k v; EUpdate k v] [EUpsert k v] post h Hctx);
    [by repeat constructor..|].
  intros tbl. cbn [foldl]. apply map_eq. intros i.
  rewrite !lookup_spec_primitive. cbn [edit_key edit_entry].
  repeat case_decide; subst; try done; by destruct (tbl !! i).
Qed.

(** X14. Of two [Insert]s of a key the first decides: the second changes
    nothing. *)
Theorem Insert_first_wins ctx pre k v1 v2 (post : list Mutator) (h : heap) :
  context_ok ctx h →
  checkValue v1 = true →
  checkValue v2 = true →
  NewMap ctx ((mutator_of <$> pre) ++ Insert k v1 :: Insert k v2 :: post) h =
  NewMap ctx ((mutator_of <$> pre) ++ Insert k v1 :: post) h.
Proof.
  intros Hctx Hv1 Hv2.
  apply (NewMap_replace ctx pre [EInsert k v1; EInsert k v2] [EInsert k v1] post h Hctx);
    [by repeat constructor..|].
  intros tbl. cbn [foldl]. apply map_eq. intros i.
  rewrite !lookup_spec_primitive. cbn [edit_key edit_entry].
  repeat case_decide; subst; try done; by destruct (tbl !! i).
Qed.

(** X15. Of two [Upsert]s of a key the last decides. *)
Theorem Upsert_last_wins ctx pre k v1 v2 (post : list Mutator) (h : heap) :
  context_ok ctx h →
  checkValue v1 = true →
  checkValue v2 = true →
  NewMap ctx ((mutator_of <$> pre) ++ Upsert k v1 :: Upsert k v2 :: post) h =
  NewMap ctx ((mutator_of <$> pre) ++ Upsert k v2 :: post) h.
Proof.
  intros Hctx Hv1 Hv2.
  apply (NewMap_replace ctx pre [EUpsert k v1; EUpsert k v2] [EUpsert k v2] post h Hctx);
    [by repeat constructor..|].
  intros tbl. cbn [foldl]. apply map_eq. intros i.
  rewrite !lookup_spec_primitive. cbn [edit_key edit_entry].
  repeat case_decide; subst; try done; by destruct (tbl !! i).
Qed.

(** X16. [Delete] of a key undoes any accepted mutator of that key before it. *)
Theorem Delete_cancels ctx pre e (post : list Mutator) (h : heap) :
  context_ok ctx h →
  edit_valid e = true →
  NewMap ctx ((mutator_of <$> pre) ++ mutator_of e :: Delete (edit_key e) :: post) h =
  NewMap ctx ((mutator_of <$> pre) ++ Delete (edit_key e) :: post) h.
Proof.
  intros Hctx He.
  apply (NewMap_replace ctx pre [e; EDelete (edit_key e)] [EDelete (edit_key e)] post h Hctx);
    [by repeat constructor..|].
  intros tbl. cbn [foldl]. apply map_eq. intros i.
  rewrite !lookup_spec_primitive. cbn [edit_key edit_entry].
  repeat case_decide; subst; try done; by destruct (tbl !! i).
Qed.

(** X17. Accepted mutators of different keys can change places. *)
Theorem mutators_commute ctx pre e1 e2 (post : list Mutator) (h : heap) :
  context_ok ctx h →
  edit_valid e1 = true →
  edit_valid e2 = true →
  edit_key e1 ≠ edit_key e2 →
  NewMap ctx ((mutator_of <$> pre) ++ mutator_of e1 :: mutator_of e2 :: post) h =
  NewMap ctx ((mutator_of <$> pre) ++ mutator_of e2 :: mutator_of e1 :: post) h.
Proof.
  intros Hctx He1 He2 Hne.
  apply (NewMap_replace ctx pre [e1; e2] [e2; e1] post h Hctx);
    [by repeat constructor..|].
  intros tbl. cbn [foldl]. apply map_eq. intros i.
  rewrite !lookup_spec_primitive.
  repeat case_decide; subst; done.
Qed.

(** ** Further properties of [String] *)


(** X19. The string of a map with one entry: the name and the value, a space
    between them, in two pairs of braces with a space inside the outer
    pair. *)
Theorem Map_String_singleton (h : heap) l t k v :
  h !! l = Some t →
  m t = {[k := v]} →
  Map_String (Some l) h = Some ("{ {" +:+ Name k +:+ " " +:+ v +:+ "} }", h).
Proof.
  intros Hl Hone. rewrite (Map_String_run _ _ _ Hl), Hone.
  set (less := λ i j, String.ltb (Name i) (Name j)).
  assert (sort_Slice ((range {[k := v]}).*1) less = [k]) as ->.
  { apply Permutation_singleton_r.
    by rewrite sort_Slice_perm, range_perm, map_to_list_singleton. }
  unfold Serialize_of, fmt_tag. simpl. rewrite lookup_singleton_eq. simpl.
  by rewrite !append_assoc.
Qed.

End tag.


(** ** [String] does not depend on the run time's choices *)

Section determinism.

Context {Key : Type} `{Countable Key}.
Variable Name : Key → string.

(** Two run times: each with its own [range] order and its own
    [sort.Slice]. *)
Variables range1 range2 : gmap Key string → list (Key * string).
Hypothesis range1_perm : ∀ tbl, range1 tbl ≡ₚ map_to_list tbl.
Hypothesis range2_perm : ∀ tbl, range2 tbl ≡ₚ map_to_list tbl.

Variables sort1 sort2 : list Key → (Key → Key → bool) → list Key.
Hypothesis sort1_perm : ∀ l less, sort1 l less ≡ₚ l.
Hypothesis sort2_perm : ∀ l less, sort2 l less ≡ₚ l.
Hypothesis sort1_sorted : ∀ l less,
  strict_weak_order less → StronglySorted (λ a b, less b a = false) (sort1 l less).
Hypothesis sort2_sorted : ∀ l less,
  strict_weak_order less → StronglySorted (λ a b, less b a = false) (sort2 l less).

Lemma elem_of_keys (tbl : gmap Key string) keys k :
  keys ≡ₚ (map_to_list tbl).*1 → k ∈ keys ↔ is_Some (tbl !! k).
Proof.
  intros ->. rewrite list_elem_of_fmap. split.
  - intros [[k' v] [-> Hkv]]. apply elem_of_map_to_list in Hkv. eauto.
  - intros [v Hk]. exists (k, v). split; [done|]. by apply elem_of_map_to_list.
Qed.

Lemma StronglySorted_strict (keys : list Key) :
  NoDup keys →
  (∀ k1 k2, k1 ∈ keys → k2 ∈ keys → Name k1 = Name k2 → k1 = k2) →
  StronglySorted (λ a b, String.ltb (Name b) (Name a) = false) keys →
  StronglySorted (λ a b, String.ltb (Name a) (Name b) = true) keys.
Proof.
  intros Hnd Hinj Hsorted.
  induction Hsorted as [|a keys Hsorted IH Hhd]; [constructor|].
  apply NoDup_cons in Hnd as [Ha Hnd]. constructor.
  - apply IH; [done|]. intros k1 k2 ??. apply Hinj; by right.
  - rewrite Forall_forall in Hhd |- *. intros b Hb.
    apply string_ltb_connex; [|by apply Hhd].
    intros Heq. apply Ha.
    rewrite (Hinj a b) by (done || by left || by right). done.
Qed.

(** The entries behind a list of the map's keys. *)
Lemma entries_of_keys (tbl : gmap Key string) keys :
  keys ≡ₚ (map_to_list tbl).*1 →
  (λ k, (k, default "" (tbl !! k))) <$> keys ≡ₚ map_to_list tbl.
Proof.
  intros ->. rewrite <-list_fmap_compose.
  assert ((λ k, (k, default "" (tbl !! k))) ∘ fst <$> map_to_list tbl = map_to_list tbl)
    as ->; [|done].
  rewrite <-(list_fmap_id (map_to_list tbl)) at 2.
  apply list_fmap_ext. intros i [k v] Hi. simpl.
  apply list_elem_of_lookup_2, elem_of_map_to_list in Hi. by rewrite Hi.
Qed.

(** C8, amended. Let two maps hold the same entries, in stores and under
    run times that may differ in every choice Go leaves open (the order of
    [range], the rearrangement of equal elements by [sort.Slice]), and
    let no two keys of the map share a display name. Then there is one
    list of entries (those of the map, each once, in strictly ascending
    order of display name) such that both calls return the same string:
    an opening brace and a space, then for each entry in that order an
    opening brace, the name, a space, the value and a closing brace, then
    a space and a closing brace. *)
Theorem Map_String_deterministic (h1 h2 : gmap loc Map) l1 l2 t1 t2 :
  (∀ k1 k2, is_Some (m t1 !! k1) → is_Some (m t1 !! k2) →
            Name k1 = Name k2 → k1 = k2) →
  h1 !! l1 = Some t1 →
  h2 !! l2 = Some t2 →
  (∀ k, m t1 !! k = m t2 !! k) →
  ∃ entries : list (Key * string),
    entries ≡ₚ map_to_list (m t1) ∧
    StronglySorted (λ a b, String.ltb (Name a.1) (Name b.1) = true) entries ∧
    Map_String Name range1 sort1 (Some l1) h1 =
      Some ("{ " +:+
            String.concat ""
              ((λ kv, "{" +:+ Name kv.1 +:+ " " +:+ kv.2 +:+ "}") <$> entries) +:+
            " }", h1) ∧
    Map_String Name range2 sort2 (Some l2) h2 =
      Some ("{ " +:+
            String.concat ""
              ((λ kv, "{" +:+ Name kv.1 +:+ " " +:+ kv.2 +:+ "}") <$> entries) +:+
            " }", h2).
Proof.
  intros Hinj Hl1 Hl2 Hsame.
  assert (m t2 = m t1) as Heq by (apply map_eq; intros k; by rewrite Hsame).
  pose proof (sorted_keys_spec Name range1 range1_perm sort1 sort1_perm sort1_sorted (m t1))
    as [Hperm1 Hsorted1].
  pose proof (sorted_keys_spec Name range2 range2_perm sort2 sort2_perm sort2_sorted (m t1))
    as [Hperm2 Hsorted2].
  set (less := λ i j, String.ltb (Name i) (Name j)) in *.
  set (keys := sort1 ((range1 (m t1)).*1) less) in *.
  assert (sort2 ((range2 (m t1)).*1) less = keys) as Hkeys.
  { refine (StronglySorted_unique_strong _ _ _ _ Hsorted2 Hsorted1 _);
      [|by rewrite Hperm1, Hperm2].
    intros k1 k2 Hk1 Hk2 H12 H21.
    apply Hinj.
    - by apply (elem_of_keys _ _ _ Hperm2).
    - by apply (elem_of_keys _ _ _ Hperm1).
    - by apply string_ltb_ge_antisym. }
  assert (NoDup keys) as Hnd.
  { rewrite Hperm1. apply NoDup_fst_map_to_list. }
  assert (StronglySorted (λ a b, String.ltb (Name a) (Name b) = true) keys) as Hstrict.
  { apply StronglySorted_strict; [done| |done].
    intros k1 k2 Hk1 Hk2. apply Hinj; by apply (elem_of_keys _ _ _ Hperm1). }
  assert (∀ h : gmap loc (@Map Key _ _),
    Some (Serialize_of Name (m t1) keys, h) =
    Some ("{ " +:+
          String.concat ""
            ((λ kv, "{" +:+ Name kv.1 +:+ " " +:+ kv.2 +:+ "}") <$>
               ((λ k, (k, default "" (m t1 !! k))) <$> keys)) +:+
          " }", h)) as Hrender.
  { intros h. unfold Serialize_of. by rewrite <-list_fmap_compose. }
  exists ((λ k, (k, default "" (m t1 !! k))) <$> keys).
  split; [by apply entries_of_keys|]. split; [|split].
  - by apply (StronglySorted_fmap _ (λ a b, String.ltb (Name a) (Name b) = true)).
  - rewrite (Map_String_run Name range1 sort1 _ _ _ Hl1). apply Hrender.
  - rewrite (Map_String_run Name range2 sort2 _ _ _ Hl2), Heq.
    rewrite <-Hrender.
    exact (f_equal (λ ks, Some (Serialize_of Name (m t1) ks, h2)) Hkeys).
Qed.

End determinism.

(** ** [NewMap] does not depend on the order of [range] *)

Section range_order.

Context {Key : Type} `{Countable Key}.
Variable context : Type.
Variable FromContext : context → ptr.

Variables range1 range2 : gmap Key string → list (Key * string).
Hypothesis range1_perm : ∀ tbl, range1 tbl ≡ₚ map_to_list tbl.
Hypothesis range2_perm : ∀ tbl, range2 tbl ≡ₚ map_to_list tbl.

(** X20. Under two run times that visit the ancestor's entries in different
    orders, [NewMap] returns the same result and leaves the same store,
    for any mutators whatever. *)
Theorem NewMap_range_irrelevant ctx (mods : list Mutator) (h : gmap loc Map) :
  context_ok context FromContext ctx h →
  NewMap context FromContext range1 ctx mods h =
  NewMap context FromContext range2 ctx mods h.
Proof.
  intros Hctx. rewrite !NewMap_copy by done.
  by rewrite (copied_ancestor context FromContext range1 range1_perm),
             (copied_ancestor context FromContext range2 range2_perm).
Qed.

End range_order.

(** ** The runnable instance meets the run time's contracts *)

Lemma insert_sorted_perm {A} (less : A → A → bool) x l :
  insert_sorted less x l ≡ₚ x :: l.
Proof.
  induction l as [|y l IH]; simpl; [done|].
  destruct (less y x); [|done].
  rewrite IH. apply Permutation_swap.
Qed.

Lemma insertion_sort_perm {A} (l : list A) (less : A → A → bool) :
  insertion_sort l less ≡ₚ l.
Proof.
  unfold insertion_sort. induction l as [|x l IH]; simpl; [done|].
  by rewrite insert_sorted_perm, IH.
Qed.

Lemma insert_sorted_sorted `{Countable Key} (less : Key → Key → bool) x l :
  strict_weak_order less →
  StronglySorted (λ a b, less b a = false) l →
  StronglySorted (λ a b, less b a = false) (insert_sorted less x l).
Proof.
  intros (Hirr & Htrans & Hge) Hl.
  induction Hl as [|y l Hl IH Hy]; simpl.
  - repeat constructor.
  - destruct (less y x) eqn:Hyx.
    + constructor; [done|].
      rewrite insert_sorted_perm. constructor; [|done].
      destruct (less x y) eqn:Hxy; [|done].
      pose proof (Htrans x y x Hxy Hyx) as Hxx. by rewrite Hirr in Hxx.
    + constructor; [by constructor|]. constructor; [done|].
      rewrite Forall_forall in Hy |- *. intros z Hz.
      apply (Hge z y x); [by apply Hy|done].
Qed.

Lemma insertion_sort_sorted `{Countable Key} (l : list Key) (less : Key → Key → bool) :
  strict_weak_order less →
  StronglySorted (λ a b, less b a = false) (insertion_sort l less).
Proof.
  intros Hless. unfold insertion_sort.
  induction l as [|x l IH]; simpl; [constructor|].
  by apply insert_sorted_sorted.
Qed.

Lemma range_backwards_perm `{Countable K} {V} (tbl : gmap K V) :
  range_backwards tbl ≡ₚ map_to_list tbl.
Proof. unfold range_backwards. by rewrite reverse_Permutation. Qed.

Lemma sort_backwards_perm {A} (l : list A) (less : A → A → bool) :
  sort_backwards l less ≡ₚ l.
Proof. unfold sort_backwards. by rewrite insertion_sort_perm, reverse_Permutation. Qed.

Lemma sort_backwards_sorted `{Countable Key} (l : list Key) (less : Key → Key → bool) :
  strict_weak_order less →
  StronglySorted (λ a b, less b a = false) (sort_backwards l less).
Proof. apply insertion_sort_sorted. Qed.

(** ** The theorems at concrete inputs *)

Lemma Insert_keeps_present_witness :
  ∃ h' : gmap loc Map,
    Mutate (Insert nonempty_value "region" "eu") (Some 1%positive)
      {[1%positive := mkMap {["region" := "us"]}]} = Some ((Some 1%positive, None), h') ∧
    Map_Value (Some 1%positive) "region" h' = Some (("us", true), h') ∧
    h' = {[1%positive := mkMap {["region" := "us"]}]}.
Proof.
  apply (Insert_keeps_present nonempty_value _ _ (mkMap {["region" := "us"]}) _ "us" "eu").
  - vm_compute. reflexivity.
  - vm_compute. reflexivity.
  - reflexivity.
Defined.

Lemma Update_keeps_absent_witness :
  ∃ h' : gmap loc Map,
    Mutate (Update nonempty_value "zone" "a") (Some 1%positive)
      {[1%positive := mkMap {["region" := "us"]}]} = Some ((Some 1%positive, None), h') ∧
    Map_Value (Some 1%positive) "zone" h' = Some (("", false), h') ∧
    h' = {[1%positive := mkMap {["region" := "us"]}]}.
Proof.
  apply (Update_keeps_absent nonempty_value _ _ (mkMap {["region" := "us"]}) "zone" "a").
  - vm_compute. reflexivity.
  - vm_compute. reflexivity.
  - reflexivity.
Defined.

Lemma Upsert_valid_Value_witness :
  ∃ h' : gmap loc Map,
    Mutate (Upsert nonempty_value "region" "eu") (Some 1%positive)
      {[1%positive := mkMap {["region" := "us"]}]} = Some ((Some 1%positive, None), h') ∧
    Map_Value (Some 1%positive) "region" h' = Some (("eu", true), h').
Proof.
  apply (Upsert_valid_Value nonempty_value _ _ (mkMap {["region" := "us"]}) "region" "eu").
  - vm_compute. reflexivity.
  - reflexivity.
Defined.

(** C6 as stated fails on a value [checkValue] refuses: [Upsert] of the
    empty string, under a predicate that refuses it, returns no map and
    [errInvalid], and the key is not found afterwards. *)
Lemma Upsert_invalid_value_counterexample :
  Mutate (Upsert nonempty_value "zone" "") (Some 1%positive)
    ({[1%positive := mkMap ∅]} : gmap loc Map) =
    Some ((None, Some errInvalid), {[1%positive := mkMap ∅]}) ∧
  Map_Value (Some 1%positive) "zone" ({[1%positive := mkMap ∅]} : gmap loc Map) =
    Some (("", false), {[1%positive := mkMap ∅]}) ∧
  ¬ ∃ r (h' : gmap loc Map),
      Mutate (Upsert nonempty_value "zone" "") (Some 1%positive)
        {[1%positive := mkMap ∅]} = Some (r, h') ∧
      Map_Value (Some 1%positive) "zone" h' = Some (("", true), h').
Proof.
  assert (Mutate (Upsert nonempty_value "zone" "") (Some 1%positive)
            ({[1%positive := mkMap ∅]} : gmap loc Map) =
          Some ((None, Some errInvalid), {[1%positive := mkMap ∅]})) as Hrun
    by (vm_compute; reflexivity).
  assert (Map_Value (Some 1%positive) "zone" ({[1%positive := mkMap ∅]} : gmap loc Map) =
          Some (("", false), {[1%positive := mkMap ∅]})) as Hval
    by (vm_compute; reflexivity).
  split; [done|]. split; [done|].
  intros (r & h' & Hrun' & Hval').
  rewrite Hrun in Hrun'. injection Hrun' as <- <-.
  rewrite Hval in Hval'. discriminate.
Qed.

Lemma Upsert_idempotent_witness :
  ∃ h1 h2 : gmap loc Map,
    Mutate (Upsert nonempty_value "zone" "a") (Some 1%positive)
      {[1%positive := mkMap {["region" := "us"]}]} = Some ((Some 1%positive, None), h1) ∧
    Mutate (Upsert nonempty_value "zone" "a") (Some 1%positive) h1 =
      Some ((Some 1%positive, None), h2) ∧
    h2 = h1 ∧
    ∀ k', Map_Value (Some 1%positive) k' h2 = Map_Value (Some 1%positive) k' h1.
Proof.
  apply (Upsert_idempotent nonempty_value _ _ (mkMap {["region" := "us"]}) "zone" "a").
  - vm_compute. reflexivity.
  - reflexivity.
Defined.

Lemma Delete_Value_witness :
  ∃ h' : gmap loc Map,
    Mutate (Delete "region") (Some 1%positive)
      {[1%positive := mkMap {["region" := "us"]}]} = Some ((Some 1%positive, None), h') ∧
    Map_Value (Some 1%positive) "region" h' = Some (("", false), h').
Proof.
  apply (Delete_Value _ _ (mkMap {["region" := "us"]}) "region").
  vm_compute. reflexivity.
Defined.

Lemma NewMap_invalid_stops_witness :
  ∃ pre bad post (h' : gmap loc Map),
    [EUpsert "k1" "valid"; EUpsert "k2" ""] = pre ++ bad :: post ∧
    Forall (λ e, edit_valid nonempty_value e = true) pre ∧
    edit_valid nonempty_value bad = false ∧
    NewMap ptr_context ptr_FromContext map_to_list (Some 1%positive)
      (mutator_of nonempty_value <$> [EUpsert "k1" "valid"; EUpsert "k2" ""])
      {[1%positive := mkMap {["region" := "us"]}]} =
      Some ((None, Some errInvalid), h') ∧
    (∀ rest : list Mutator,
       NewMap ptr_context ptr_FromContext map_to_list (Some 1%positive)
         ((mutator_of nonempty_value <$> pre) ++ mutator_of nonempty_value bad :: rest)
         {[1%positive := mkMap {["region" := "us"]}]} =
         Some ((None, Some errInvalid), h')) ∧
    (∃ l', NewMap ptr_context ptr_FromContext map_to_list (Some 1%positive)
             (mutator_of nonempty_value <$> pre)
             {[1%positive := mkMap {["region" := "us"]}]} =
             Some ((Some l', None), h')) ∧
    (∀ l, is_Some (({[1%positive := mkMap {["region" := "us"]}]} : gmap loc Map) !! l) →
          h' !! l = ({[1%positive := mkMap {["region" := "us"]}]} : gmap loc Map) !! l).
Proof.
  apply (NewMap_invalid_stops nonempty_value ptr_context ptr_FromContext map_to_list).
  - intros l [= <-]. vm_compute. eauto.
  - right. left. reflexivity.
Defined.


Lemma NewMap_ancestor_unchanged_witness :
  ∃ r (h' : gmap loc Map),
    NewMap ptr_context ptr_FromContext map_to_list (Some 1%positive)
      (mutator_of nonempty_value <$> [EUpsert "zone" "a"; EDelete "region"])
      {[1%positive := mkMap {["region" := "us"]}]} = Some (r, h') ∧
    h' !! 1%positive = Some (mkMap {["region" := "us"]}) ∧
    (∀ k, fst <$> Map_Value (Some 1%positive) k h' =
          fst <$> Map_Value (Some 1%positive) k
                    ({[1%positive := mkMap {["region" := "us"]}]} : gmap loc Map)) ∧
    r.1 ≠ Some 1%positive.
Proof.
  apply (NewMap_ancestor_unchanged nonempty_value ptr_context ptr_FromContext map_to_list).
  - reflexivity.
  - vm_compute. reflexivity.
Defined.

Lemma Map_String_empty_witness :
  Map_String name_of map_to_list insertion_sort (Some 1%positive)
    ({[1%positive := mkMap ∅]} : gmap loc Map) =
    Some ("{  }", {[1%positive := mkMap ∅]}).
Proof.
  apply (Map_String_empty name_of map_to_list (λ tbl, reflexivity _)
           insertion_sort insertion_sort_perm _ _ (mkMap ∅)).
  - vm_compute. reflexivity.
  - reflexivity.
Defined.

Lemma Map_String_deterministic_witness :
  ∃ entries : list (string * string),
    entries ≡ₚ map_to_list ({["zone" := "a"; "region" := "us"]} : gmap string string) ∧
    StronglySorted (λ a b, String.ltb (name_of a.1) (name_of b.1) = true) entries ∧
    Map_String name_of map_to_list insertion_sort (Some 1%positive)
      ({[1%positive := mkMap {["zone" := "a"; "region" := "us"]}]} : gmap loc Map) =
      Some ("{ " +:+
            String.concat ""
              ((λ kv, "{" +:+ name_of kv.1 +:+ " " +:+ kv.2 +:+ "}") <$> entries) +:+
            " }", {[1%positive := mkMap {["zone" := "a"; "region" := "us"]}]}) ∧
    Map_String name_of range_backwards sort_backwards (Some 2%positive)
      ({[2%positive := mkMap {["region" := "us"; "zone" := "a"]}]} : gmap loc Map) =
      Some ("{ " +:+
            String.concat ""
              ((λ kv, "{" +:+ name_of kv.1 +:+ " " +:+ kv.2 +:+ "}") <$> entries) +:+
            " }", {[2%positive := mkMap {["region" := "us"; "zone" := "a"]}]}).
Proof.
  refine (Map_String_deterministic name_of
            map_to_list range_backwards (λ tbl, reflexivity _) range_backwards_perm
            insertion_sort sort_backwards insertion_sort_perm sort_backwards_perm
            insertion_sort_sorted sort_backwards_sorted
            {[1%positive := mkMap {["zone" := "a"; "region" := "us"]}]}
            {[2%positive := mkMap {["region" := "us"; "zone" := "a"]}]}
            1%positive 2%positive
            (mkMap {["zone" := "a"; "region" := "us"]})
            (mkMap {["region" := "us"; "zone" := "a"]}) _ _ _ _).
  - intros k1 k2 _ _ Hname. exact Hname.
  - vm_compute. reflexivity.
  - vm_compute. reflexivity.
  - intros k. apply (f_equal (λ tbl : gmap string string, tbl !! k)).
    vm_compute. reflexivity.
Defined.

(** C8 as stated fails when two keys of a map share a display name: the
    sort compares names only, so the two entries come out in the order
    [range] happened to visit them. One map, under two run times that
    differ in that order alone, prints as two different strings. *)
Lemma Map_String_same_name_counterexample :
  Map_String id_key_name map_to_list insertion_sort (Some 1%positive)
    ({[1%positive := mkMap {[(1%positive, "a") := "x"; (2%positive, "a") := "y"]}]}
       : gmap loc (@Map id_key _ _)) =
    Some ("{ {a x}{a y} }",
          {[1%positive := mkMap {[(1%positive, "a") := "x"; (2%positive, "a") := "y"]}]}) ∧
  Map_String id_key_name range_backwards insertion_sort (Some 1%positive)
    ({[1%positive := mkMap {[(1%positive, "a") := "x"; (2%positive, "a") := "y"]}]}
       : gmap loc (@Map id_key _ _)) =
    Some ("{ {a y}{a x} }",
          {[1%positive := mkMap {[(1%positive, "a") := "x"; (2%positive, "a") := "y"]}]}) ∧
  fst <$> Map_String id_key_name map_to_list insertion_sort (Some 1%positive)
            ({[1%positive := mkMap {[(1%positive, "a") := "x"; (2%positive, "a") := "y"]}]}
               : gmap loc (@Map id_key _ _)) ≠
  fst <$> Map_String id_key_name range_backwards insertion_sort (Some 1%positive)
            ({[1%positive := mkMap {[(1%positive, "a") := "x"; (2%positive, "a") := "y"]}]}
               : gmap loc (@Map id_key _ _)).
Proof.
  split; [vm_compute; reflexivity|]. split; [vm_compute; reflexivity|].
  vm_compute. discriminate.
Qed.

(** C1 as stated fails on a sequence that holds a mutator from outside the
    package: after one that hands back nil, the next constructed mutator
    dereferences nil and [NewMap] panics; no [errInvalid] is returned for
    the invalid value further on. *)
Lemma NewMap_foreign_nil_counterexample :
  NewMap ptr_context ptr_FromContext map_to_list None
    [give_nil; Upsert nonempty_value "k1" "valid"; Upsert nonempty_value "k2" ""]
    (∅ : gmap loc (@Map string _ _)) = None ∧
  ¬ ∃ h' : gmap loc (@Map string _ _),
      NewMap ptr_context ptr_FromContext map_to_list None
        [give_nil; Upsert nonempty_value "k1" "valid"; Upsert nonempty_value "k2" ""]
        ∅ = Some ((None, Some errInvalid), h').
Proof.
  assert (NewMap ptr_context ptr_FromContext map_to_list None
            [give_nil; Upsert nonempty_value "k1" "valid"; Upsert nonempty_value "k2" ""]
            (∅ : gmap loc (@Map string _ _)) = None) as Hrun
    by (vm_compute; reflexivity).
  split; [done|]. intros [h' Hrun']. rewrite Hrun in Hrun'. discriminate.
Qed.

(** C3 as stated fails on a sequence that holds a mutator from outside the
    package: after one that hands back the ancestor itself, the
    constructed mutators that follow write the ancestor, and [NewMap]
    returns it: the ancestor has lost [region] and gained [zone]. *)
Lemma NewMap_foreign_ancestor_counterexample :
  NewMap ptr_context ptr_FromContext map_to_list (Some 1%positive)
    [give_back (Some 1%positive); Upsert nonempty_value "zone" "b"; Delete "region"]
    ({[1%positive := mkMap {["region" := "us"]}]} : gmap loc Map) =
    Some ((Some 1%positive, None),
          <[2%positive := mkMap {["region" := "us"]}]>
            {[1%positive := mkMap {["zone" := "b"]}]}) ∧
  Map_Value (Some 1%positive) "region"
    ({[1%positive := mkMap {["region" := "us"]}]} : gmap loc Map) =
    Some (("us", true), {[1%positive := mkMap {["region" := "us"]}]}) ∧
  Map_Value (Some 1%positive) "region"
    (<[2%positive := mkMap {["region" := "us"]}]>
       {[1%positive := mkMap {["zone" := "b"]}]} : gmap loc Map) =
    Some (("", false),
          <[2%positive := mkMap {["region" := "us"]}]>
            {[1%positive := mkMap {["zone" := "b"]}]}).
Proof.
  split; [vm_compute; reflexivity|]. split; vm_compute; reflexivity.
Qed.

(** ** The specification's worked example, run

    Ancestor [{region: us}], mutators [Upsert(zone, a)] and
    [Delete(region)]: the derived map holds [zone ↦ a] alone and prints as
    such; the ancestor still prints as before. *)

Example derive_example_String :
  fst <$> bind (NewMap ptr_context ptr_FromContext map_to_list (Some 1%positive)
                  [Upsert nonempty_value "zone" "a"; Delete "region"])
               (λ r, Map_String name_of map_to_list insertion_sort r.1)
               {[1%positive := mkMap {["region" := "us"]}]}
  = Some "{ {zone a} }".
Proof. vm_compute. reflexivity. Qed.

Example derive_example_Value :
  fst <$> bind (NewMap ptr_context ptr_FromContext range_backwards (Some 1%positive)
                  [Upsert nonempty_value "zone" "a"; Delete "region"])
               (λ r, bind (Map_Value r.1 "zone")
                       (λ z, bind (Map_Value r.1 "region") (λ g, ret (z, g))))
               {[1%positive := mkMap {["region" := "us"]}]}
  = Some (("a", true), ("", false)).
Proof. vm_compute. reflexivity. Qed.

Example derive_example_ancestor :
  fst <$> bind (NewMap ptr_context ptr_FromContext map_to_list (Some 1%positive)
                  [Upsert nonempty_value "zone" "a"; Delete "region"])
               (λ _, Map_String name_of range_backwards sort_backwards (Some 1%positive))
               {[1%positive := mkMap {["region" := "us"]}]}
  = Some "{ {region us} }".
Proof. vm_compute. reflexivity. Qed.

Example derive_example_short_circuit :
  fst <$> NewMap ptr_context ptr_FromContext map_to_list None
            [Upsert nonempty_value "k1" "valid"; Upsert nonempty_value "k2" ""]
            (∅ : gmap loc (@Map string _ _))
  = Some (None, Some errInvalid).
Proof. vm_compute. reflexivity. Qed.

Example String_two_entries :
  fst <$> Map_String name_of range_backwards sort_backwards (Some 1%positive)
            ({[1%positive := mkMap {["zone" := "a"; "region" := "us"]}]} : gmap loc Map)
  = Some "{ {region us}{zone a} }".
Proof. vm_compute. reflexivity. Qed.

Example nil_receiver_panics :
  Map_Value None "zone" (∅ : gmap loc (@Map string _ _)) = None.
Proof. reflexivity. Qed.

(** ** The further properties at concrete inputs *)

Lemma Insert_absent_Value_witness :
  ∃ h' : gmap loc Map,
    Mutate (Insert nonempty_value "zone" "a") (Some 1%positive)
      {[1%positive := mkMap {["region" := "us"]}]} = Some ((Some 1%positive, None), h') ∧
    Map_Value (Some 1%positive) "zone" h' = Some (("a", true), h').
Proof.
  apply (Insert_absent_Value nonempty_value _ _ (mkMap {["region" := "us"]}) "zone" "a").
  - vm_compute. reflexivity.
  - vm_compute. reflexivity.
  - reflexivity.
Defined.

Lemma Update_present_Value_witness :
  ∃ h' : gmap loc Map,
    Mutate (Update nonempty_value "region" "eu") (Some 1%positive)
      {[1%positive := mkMap {["region" := "us"]}]} = Some ((Some 1%positive, None), h') ∧
    Map_Value (Some 1%positive) "region" h' = Some (("eu", true), h').
Proof.
  apply (Update_present_Value nonempty_value _ _ (mkMap {["region" := "us"]})
           "region" "us" "eu").
  - vm_compute. reflexivity.
  - vm_compute. reflexivity.
  - reflexivity.
Defined.

Lemma invalid_value_refused_witness :
  Mutate (Insert nonempty_value "zone" "") None (∅ : gmap loc Map) =
    Some ((None, Some errInvalid), ∅) ∧
  Mutate (Update nonempty_value "zone" "") None (∅ : gmap loc Map) =
    Some ((None, Some errInvalid), ∅) ∧
  Mutate (Upsert nonempty_value "zone" "") None (∅ : gmap loc Map) =
    Some ((None, Some errInvalid), ∅).
Proof.
  apply (invalid_value_refused nonempty_value None ∅ "zone" ""). reflexivity.
Defined.

Lemma nil_receiver_panics_all_witness :
  Mutate (mutator_of nonempty_value (EUpsert "zone" "a")) None (∅ : gmap loc Map) = None ∧
  Map_Value None "zone" (∅ : gmap loc Map) = None ∧
  Map_String name_of map_to_list insertion_sort None (∅ : gmap loc Map) = None.
Proof.
  apply (nil_receiver_panics_all name_of nonempty_value map_to_list insertion_sort
           ∅ (EUpsert "zone" "a") "zone").
  reflexivity.
Defined.

Lemma Mutate_other_keys_witness :
  ∃ r (h' : gmap loc Map),
    Mutate (mutator_of nonempty_value (EDelete "zone")) (Some 1%positive)
      {[1%positive := mkMap {["zone" := "a"; "region" := "us"]}]} = Some (r, h') ∧
    fst <$> Map_Value (Some 1%positive) "region" h' =
    fst <$> Map_Value (Some 1%positive) "region"
              ({[1%positive := mkMap {["zone" := "a"; "region" := "us"]}]} : gmap loc Map).
Proof.
  apply (Mutate_other_keys nonempty_value _ _
           (mkMap {["zone" := "a"; "region" := "us"]}) (EDelete "zone") "region").
  - vm_compute. reflexivity.
  - discriminate.
Defined.

Lemma Mutate_only_receiver_witness :
  ∃ r (h' : gmap loc Map),
    Mutate (mutator_of nonempty_value (EUpsert "zone" "a")) (Some 1%positive)
      {[1%positive := mkMap ∅; 2%positive := mkMap {["region" := "us"]}]} = Some (r, h') ∧
    (r = (Some 1%positive, None) ∨ r = (None, Some errInvalid)) ∧
    dom h' = dom ({[1%positive := mkMap ∅; 2%positive := mkMap {["region" := "us"]}]}
                    : gmap loc Map) ∧
    ∀ l', l' ≠ 1%positive →
      h' !! l' = ({[1%positive := mkMap ∅; 2%positive := mkMap {["region" := "us"]}]}
                    : gmap loc Map) !! l'.
Proof.
  apply (Mutate_only_receiver nonempty_value _ _ (mkMap ∅) (EUpsert "zone" "a")).
  vm_compute. reflexivity.
Defined.

Lemma NewMap_no_mutators_copies_witness :
  ∃ l' (h' : gmap loc Map),
    NewMap ptr_context ptr_FromContext range_backwards (Some 1%positive) []
      {[1%positive := mkMap {["zone" := "a"; "region" := "us"]}]} =
      Some ((Some l', None), h') ∧
    ({[1%positive := mkMap {["zone" := "a"; "region" := "us"]}]} : gmap loc Map) !! l' = None ∧
    h' !! l' =
      Some (mkMap (default ∅ (ancestor_of ptr_context ptr_FromContext (Some 1%positive)
                                 {[1%positive := mkMap {["zone" := "a"; "region" := "us"]}]}))).
Proof.
  apply (NewMap_no_mutators_copies ptr_context ptr_FromContext
           range_backwards range_backwards_perm).
  intros l [= <-]. vm_compute. eauto.
Defined.

Lemma NewMap_outcomes_witness :
  ∃ r (h' : gmap loc Map),
    NewMap ptr_context ptr_FromContext map_to_list None
      (mutator_of nonempty_value <$> [EInsert "zone" "a"; EUpdate "zone" ""]) ∅ =
      Some (r, h') ∧
    ((Forall (λ e, edit_valid nonempty_value e = true)
        [EInsert "zone" "a"; EUpdate "zone" ""] ∧ ∃ l', r = (Some l', None)) ∨
     (Exists (λ e, edit_valid nonempty_value e = false)
        [EInsert "zone" "a"; EUpdate "zone" ""] ∧ r = (None, Some errInvalid))).
Proof.
  apply (NewMap_outcomes nonempty_value ptr_context ptr_FromContext map_to_list).
  intros l. discriminate.
Defined.

Lemma NewMap_writes_only_new_witness :
  ∃ r (h' : gmap loc Map) l',
    NewMap ptr_context ptr_FromContext map_to_list (Some 1%positive)
      (mutator_of nonempty_value <$> [EDelete "region"; EInsert "zone" "a"])
      {[1%positive := mkMap {["region" := "us"]}]} = Some (r, h') ∧
    ({[1%positive := mkMap {["region" := "us"]}]} : gmap loc Map) !! l' = None ∧
    (r.1 = Some l' ∨ r.1 = None) ∧
    ∀ l, l ≠ l' →
      h' !! l = ({[1%positive := mkMap {["region" := "us"]}]} : gmap loc Map) !! l.
Proof.
  apply (NewMap_writes_only_new nonempty_value ptr_context ptr_FromContext map_to_list).
  intros l [= <-]. vm_compute. eauto.
Defined.

Lemma NewMap_untouched_key_witness :
  Map_Value (Some 2%positive) "region"
    (<[2%positive := mkMap {["zone" := "a"; "region" := "us"]}]>
       {[1%positive := mkMap {["region" := "us"]}]} : gmap loc Map) =
    Some ((default "" (default ∅ (ancestor_of ptr_context ptr_FromContext (Some 1%positive)
                                    {[1%positive := mkMap {["region" := "us"]}]})
                         !! "region"),
           bool_decide (is_Some (default ∅ (ancestor_of ptr_context ptr_FromContext
                                              (Some 1%positive)
                                              {[1%positive := mkMap {["region" := "us"]}]})
                                   !! "region"))),
          <[2%positive := mkMap {["zone" := "a"; "region" := "us"]}]>
            {[1%positive := mkMap {["region" := "us"]}]}).
Proof.
  apply (NewMap_untouched_key nonempty_value ptr_context ptr_FromContext
           map_to_list (λ tbl, reflexivity _)
           (Some 1%positive) [EUpsert "zone" "a"]).
  - intros l [= <-]. vm_compute. eauto.
  - repeat constructor. discriminate.
  - vm_compute. reflexivity.
Defined.

Lemma NewMap_compose_witness :
  ∃ r2 (h2 : gmap loc Map) r12 (h12 : gmap loc Map),
    NewMap ptr_context ptr_FromContext map_to_list (Some 2%positive)
      (mutator_of nonempty_value <$> [EDelete "region"])
      (<[2%positive := mkMap {["zone" := "a"; "region" := "us"]}]>
         {[1%positive := mkMap {["region" := "us"]}]}) = Some (r2, h2) ∧
    NewMap ptr_context ptr_FromContext map_to_list (Some 1%positive)
      (mutator_of nonempty_value <$> ([EUpsert "zone" "a"] ++ [EDelete "region"]))
      {[1%positive := mkMap {["region" := "us"]}]} = Some (r12, h12) ∧
    r2.2 = r12.2 ∧
    ∀ l2 l12, r2.1 = Some l2 → r12.1 = Some l12 → h2 !! l2 = h12 !! l12.
Proof.
  refine (NewMap_compose nonempty_value ptr_context ptr_FromContext
            map_to_list (λ tbl, reflexivity _)
            (Some 1%positive) (Some 2%positive) [EUpsert "zone" "a"] [EDelete "region"]
            {[1%positive := mkMap {["region" := "us"]}]}
            (<[2%positive := mkMap {["zone" := "a"; "region" := "us"]}]>
               {[1%positive := mkMap {["region" := "us"]}]})
            2%positive _ _ _).
  - intros l [= <-]. vm_compute. eauto.
  - vm_compute. reflexivity.
  - reflexivity.
Defined.

Lemma Delete_Insert_is_Upsert_witness :
  NewMap ptr_context ptr_FromContext map_to_list (Some 1%positive)
    ((mutator_of nonempty_value <$> [EUpsert "zone" "a"]) ++
     Delete "region" :: Insert nonempty_value "region" "eu" :: [])
    {[1%positive := mkMap {["region" := "us"]}]} =
  NewMap ptr_context ptr_FromContext map_to_list (Some 1%positive)
    ((mutator_of nonempty_value <$> [EUpsert "zone" "a"]) ++
     Upsert nonempty_value "region" "eu" :: [])
    {[1%positive := mkMap {["region" := "us"]}]}.
Proof.
  apply (Delete_Insert_is_Upsert nonempty_value ptr_context ptr_FromContext map_to_list).
  - intros l [= <-]. vm_compute. eauto.
  - reflexivity.
Defined.

Lemma Insert_Update_is_Upsert_witness :
  NewMap ptr_context ptr_FromContext map_to_list (Some 1%positive)
    ((mutator_of nonempty_value <$> [EUpsert "zone" "a"]) ++
     Insert nonempty_value "region" "eu" :: Update nonempty_value "region" "eu" :: [])
    {[1%positive := mkMap {["region" := "us"]}]} =
  NewMap ptr_context ptr_FromContext map_to_list (Some 1%positive)
    ((mutator_of nonempty_value <$> [EUpsert "zone" "a"]) ++
     Upsert nonempty_value "region" "eu" :: [])
    {[1%positive := mkMap {["region" := "us"]}]}.
Proof.
  apply (Insert_Update_is_Upsert nonempty_value ptr_context ptr_FromContext map_to_list).
  - intros l [= <-]. vm_compute. eauto.
  - reflexivity.
Defined.

Lemma Insert_first_wins_witness :
  NewMap ptr_context ptr_FromContext map_to_list None
    ((mutator_of nonempty_value <$> []) ++
     Insert nonempty_value "zone" "a" :: Insert nonempty_value "zone" "b" :: [])
    (∅ : gmap loc Map) =
  NewMap ptr_context ptr_FromContext map_to_list None
    ((mutator_of nonempty_value <$> []) ++ Insert nonempty_value "zone" "a" :: [])
    (∅ : gmap loc Map).
Proof.
  apply (Insert_first_wins nonempty_value ptr_context ptr_FromContext map_to_list).
  - intros l. discriminate.
  - reflexivity.
  - reflexivity.
Defined.

Lemma Upsert_last_wins_witness :
  NewMap ptr_context ptr_FromContext map_to_list None
    ((mutator_of nonempty_value <$> []) ++
     Upsert nonempty_value "zone" "a" :: Upsert nonempty_value "zone" "b" :: [])
    (∅ : gmap loc Map) =
  NewMap ptr_context ptr_FromContext map_to_list None
    ((mutator_of nonempty_value <$> []) ++ Upsert nonempty_value "zone" "b" :: [])
    (∅ : gmap loc Map).
Proof.
  apply (Upsert_last_wins nonempty_value ptr_context ptr_FromContext map_to_list).
  - intros l. discriminate.
  - reflexivity.
  - reflexivity.
Defined.

Lemma Delete_cancels_witness :
  NewMap ptr_context ptr_FromContext map_to_list (Some 1%positive)
    ((mutator_of nonempty_value <$> []) ++
     mutator_of nonempty_value (EUpdate "region" "eu") ::
     Delete (edit_key (EUpdate "region" "eu")) :: [])
    {[1%positive := mkMap {["region" := "us"]}]} =
  NewMap ptr_context ptr_FromContext map_to_list (Some 1%positive)
    ((mutator_of nonempty_value <$> []) ++
     Delete (edit_key (EUpdate "region" "eu")) :: [])
    {[1%positive := mkMap {["region" := "us"]}]}.
Proof.
  apply (Delete_cancels nonempty_value ptr_context ptr_FromContext map_to_list).
  - intros l [= <-]. vm_compute. eauto.
  - reflexivity.
Defined.

Lemma mutators_commute_witness :
  NewMap ptr_context ptr_FromContext map_to_list (Some 1%positive)
    ((mutator_of nonempty_value <$> []) ++
     mutator_of nonempty_value (EUpsert "zone" "a") ::
     mutator_of nonempty_value (EDelete "region") :: [])
    {[1%positive := mkMap {["region" := "us"]}]} =
  NewMap ptr_context ptr_FromContext map_to_list (Some 1%positive)
    ((mutator_of nonempty_value <$> []) ++
     mutator_of nonempty_value (EDelete "region") ::
     mutator_of nonempty_value (EUpsert "zone" "a") :: [])
    {[1%positive := mkMap {["region" := "us"]}]}.
Proof.
  apply (mutators_commute nonempty_value ptr_context ptr_FromContext map_to_list).
  - intros l [= <-]. vm_compute. eauto.
  - reflexivity.
  - reflexivity.
  - discriminate.
Defined.


Lemma Map_String_singleton_witness :
  Map_String name_of map_to_list insertion_sort (Some 1%positive)
    ({[1%positive := mkMap {["region" := "us"]}]} : gmap loc Map) =
    Some ("{ {" +:+ name_of "region" +:+ " " +:+ "us" +:+ "} }",
          {[1%positive := mkMap {["region" := "us"]}]}).
Proof.
  apply (Map_String_singleton name_of map_to_list (λ tbl, reflexivity _)
           insertion_sort insertion_sort_perm _ _ (mkMap {["region" := "us"]})
           "region" "us").
  - vm_compute. reflexivity.
  - reflexivity.
Defined.

Lemma NewMap_range_irrelevant_witness :
  NewMap ptr_context ptr_FromContext map_to_list (Some 1%positive)
    [Upsert nonempty_value "zone" "b"; Delete "region"]
    {[1%positive := mkMap {["zone" := "a"; "region" := "us"]}]} =
  NewMap ptr_context ptr_FromContext range_backwards (Some 1%positive)
    [Upsert nonempty_value "zone" "b"; Delete "region"]
    {[1%positive := mkMap {["zone" := "a"; "region" := "us"]}]}.
Proof.
  apply (NewMap_range_irrelevant ptr_context ptr_FromContext
           map_to_list range_backwards (λ tbl, reflexivity _) range_backwards_perm).
  intros l [= <-]. vm_compute. eauto.
Defined.
